(** * Directory mutation and adaptive sharding of @helia/unixfs

    A shallow embedding of the [cp] and [rm] commands
    (src/commands/cp.ts, src/commands/rm.ts), of [cidToDirectory]
    (src/commands/utils/cid-to-directory.ts) and of the directory
    engine they drive (link table, HAMT shards, ancestor rewriting). *)

From Stdlib Require Import NArith.
From stdpp Require Import base option list strings gmap countable.

Local Open Scope string_scope.

(** ** Content identifiers and links *)

(** [Version] of multiformats/cid: a CID is encoded as version 0 or 1. *)
Inductive Version := V0 | V1.

#[global] Instance Version_eq_dec : EqDecision Version.
Proof. solve_decision. Defined.

(** A CID: its encoding version and the digest of the block it names. *)
Record CID := mkCID { version : Version; multihash : positive }.

#[global] Instance CID_eq_dec : EqDecision CID.
Proof. solve_decision. Defined.

#[global] Instance CID_countable : Countable CID.
Proof.
  refine (inj_countable'
            (fun c => match version c with
                      | V0 => xO (multihash c)
                      | V1 => xI (multihash c)
                      end)
            (fun p => match p with
                      | xO h => mkCID V0 h
                      | xI h => mkCID V1 h
                      | xH => mkCID V0 xH
                      end) _).
  by intros [[] ?].
Defined.

(** [PBLink] of @ipld/dag-pb with every field present
    ([Required<PBLink>]): the name, the cumulative size of the subtree
    and the CID the link points to. *)
Record PBLink := mkLink { Name : string; Tsize : N; Hash : CID }.

#[global] Instance PBLink_eq_dec : EqDecision PBLink.
Proof. solve_decision. Defined.

(** ** HAMT shards *)

(** A bucket of a shard node holds a direct link or a sub-shard; a
    shard node is its row of buckets, [None] for an unoccupied index
    (the row carries the bitfield and the entries at once). *)
#[local] Unset Elimination Schemes.
Inductive ShardEntry :=
| EntryLink (l : PBLink)
| EntryShard (buckets : list (option ShardEntry)).
#[local] Set Elimination Schemes.

Abbreviation ShardNode := (list (option ShardEntry)).

(** Induction on shard entries, through the buckets of a sub-shard. *)
Fixpoint ShardEntry_nested_ind (P : ShardEntry -> Prop)
         (Hlink : forall l, P (EntryLink l))
         (Hshard : forall buckets,
             Forall (fun o => match o with Some e => P e | None => True end) buckets ->
             P (EntryShard buckets))
         (e : ShardEntry) : P e :=
  match e with
  | EntryLink l => Hlink l
  | EntryShard buckets =>
    Hshard buckets
      ((fix go (bs : list (option ShardEntry))
        : Forall (fun o => match o with Some e => P e | None => True end) bs :=
          match bs return Forall _ bs with
          | [] => Forall_nil _
          | o :: bs' =>
            Forall_cons _ o bs'
              (match o return match o with Some e => P e | None => True end with
               | Some e' => ShardEntry_nested_ind P Hlink Hshard e'
               | None => I
               end)
              (go bs')
          end) buckets)
  end.

(** The occupied entries of a node, in bucket order. *)
Definition occupied (node : ShardNode) : list ShardEntry := omap id node.

(** Modelled from the spec: the removal rule of section 4.2 (the shard
    engine is not among the sources).  A sub-shard left with one entry
    that is a direct link is reducible and collapses into that link at
    the parent level; any other sub-shard stays. *)
Definition collapse (sub : ShardNode) : option ShardEntry :=
  match occupied sub with
  | [EntryLink l] => Some (EntryLink l)
  | _ => Some (EntryShard sub)
  end.

(** ** Directory nodes *)

(** The [PBNode] of a directory entry: a flat node that holds all the
    links (UnixFS type [directory]), in insertion order, or the root of
    a shard tree (UnixFS type [hamt-sharded-directory]). *)
Inductive PBNode :=
| FlatNode (Links : list PBLink)
| ShardedNode (root : ShardNode).

Definition isSharded (n : PBNode) : bool :=
  match n with FlatNode _ => false | ShardedNode _ => true end.

(** [Directory] of cid-to-directory.ts. *)
Record Directory := mkDirectory { cid : CID; node : PBNode }.

(** ** Errors *)

(** The error classes the commands raise.  [InvalidParametersError]
    (with its message) and [NotADirectoryError] (raised for a CID) are
    the ones thrown in the sources; the next four are error kinds of
    spec section 7 and 4.3 raised by the engine; [HashExhaustedError]
    is an insertion that has used up the hash segments, a case the
    spec leaves open. *)
Inductive UnixFSError :=
| InvalidParametersError (message : string)
| NotADirectoryError (c : CID)
| AlreadyExistsError
| NotFoundError
| PathSegmentNotFoundError
| PathSegmentNotADirectoryError
| HashExhaustedError.

Definition errorName (e : UnixFSError) : string :=
  match e with
  | InvalidParametersError _ => "InvalidParametersError"
  | NotADirectoryError _ => "NotADirectoryError"
  | AlreadyExistsError => "AlreadyExistsError"
  | NotFoundError => "NotFoundError"
  | PathSegmentNotFoundError => "PathSegmentNotFoundError"
  | PathSegmentNotADirectoryError => "PathSegmentNotADirectoryError"
  | HashExhaustedError => "HashExhaustedError"
  end.

Inductive result (A : Type) :=
| Ok (a : A)
| Err (e : UnixFSError).
Arguments Ok {A} a.
Arguments Err {A} e.

Definition isOk {A} (r : result A) : bool :=
  match r with Ok _ => true | Err _ => false end.

(** ** Option objects *)

(** The values an option object carries. *)
Inductive JSValue :=
| VUndefined
| VBool (b : bool)
| VNumber (n : N)
| VObject (tag : string).

#[global] Instance JSValue_eq_dec : EqDecision JSValue.
Proof. solve_decision. Defined.

(** [o.k]: reading a property that is not there gives [undefined]. *)
Definition prop (o : gmap string JSValue) (k : string) : JSValue :=
  default VUndefined (o !! k).

Definition truthy (v : JSValue) : bool :=
  match v with
  | VUndefined => false
  | VBool b => b
  | VNumber n => negb (n =? 0)%N
  | VObject _ => true
  end.

Definition isDefined (v : JSValue) : bool :=
  match v with VUndefined => false | _ => true end.

(** [mergeOpts.bind({ ignoreUndefined: true })] on two flat objects:
    the properties of [options] replace those of [defaults], except
    the ones whose value is [undefined]. *)
Definition mergeOptions (defaults options : gmap string JSValue)
  : gmap string JSValue :=
  filter (fun kv => isDefined kv.2 = true) options ∪ defaults.

(** [{ ...o, k: v }] is [<[k := v]> o]; [{ k: v, ...o }] is
    [o ∪ {[k := v]}], the spread properties written last. *)
Definition versionNumber (v : Version) : JSValue :=
  match v with V0 => VNumber 0 | V1 => VNumber 1 end.

Definition cidVersionOf (v : JSValue) : Version :=
  match v with VNumber 0 => V0 | _ => V1 end.

(** [Partial<CpOptions>]: [force], [shardSplitThresholdBytes] and the
    [signal] of [AbortOptions], each optional, and no other property. *)
Definition isCpOption (k : string) (v : JSValue) : bool :=
  if decide (k = "force") then
    match v with VUndefined | VBool _ => true | _ => false end
  else if decide (k = "shardSplitThresholdBytes") then
    match v with VUndefined | VNumber _ => true | _ => false end
  else if decide (k = "signal") then
    match v with VUndefined | VObject _ => true | _ => false end
  else false.

Definition PartialCpOptions (o : gmap string JSValue) : Prop :=
  map_Forall (fun k v => isCpOption k v = true) o.

(** [Partial<RmOptions>]: [shardSplitThresholdBytes] and [signal]. *)
Definition isRmOption (k : string) (v : JSValue) : bool :=
  if decide (k = "shardSplitThresholdBytes") then
    match v with VUndefined | VNumber _ => true | _ => false end
  else if decide (k = "signal") then
    match v with VUndefined | VObject _ => true | _ => false end
  else false.

Definition PartialRmOptions (o : gmap string JSValue) : Prop :=
  map_Forall (fun k v => isRmOption k v = true) o.

(** ** The block store and the exporter *)

(** A block, decoded: what the exporter finds behind a CID.  A
    directory block stands for the directory with its whole shard
    tree. *)
Inductive Block :=
| DirectoryBlock (n : PBNode)
| FileBlock (fileSize : N)
| RawBlock (size : N)
| ObjectBlock
| IdentityBlock.

(** The [type] of a [UnixFSEntry] of ipfs-unixfs-exporter. *)
Inductive EntryType := file | directory | raw | object | identity.

#[global] Instance EntryType_eq_dec : EqDecision EntryType.
Proof. solve_decision. Defined.

Definition type (b : Block) : EntryType :=
  match b with
  | DirectoryBlock _ => directory
  | FileBlock _ => file
  | RawBlock _ => raw
  | ObjectBlock => object
  | IdentityBlock => identity
  end.

(** Accesses to the block store, most recent first. *)
Inductive Access := BlockGet (c : CID) | BlockPut (c : CID).

Record World := mkWorld {
  blocks : gmap CID Block;
  accesses : list Access
}.

(** Commands run against the block store: a state and error monad. *)
Definition M (A : Type) : Type := World -> result A * World.

Definition ret {A} (a : A) : M A := fun w => (Ok a, w).
Definition throw {A} (e : UnixFSError) : M A := fun w => (Err e, w).
Definition bind {A B} (m : M A) (k : A -> M B) : M B :=
  fun w => match m w with
           | (Ok a, w') => k a w'
           | (Err e, w') => (Err e, w')
           end.

Notation "'do' x <- m ; k" := (bind m (fun x => k))
  (at level 10, x name, m at level 100, k at level 200).

Definition blockGet (c : CID) : M (option Block) :=
  fun w => (Ok (blocks w !! c), mkWorld (blocks w) (BlockGet c :: accesses w)).

Definition blockPut (c : CID) (b : Block) : M unit :=
  fun w => (Ok tt, mkWorld (<[c := b]> (blocks w)) (BlockPut c :: accesses w)).

(** The world after a read of the block under [c]. *)
Definition afterGet (c : CID) (w : World) : World :=
  mkWorld (blocks w) (BlockGet c :: accesses w).

(** Modelled from the spec: the exporter collaborator of section 6,
    [resolve(cid)] reading the block from the store and failing with
    [NotFoundError] when it is not there. *)
Definition exporter (c : CID) : M Block :=
  do b <- blockGet c;
  match b with
  | Some b => ret b
  | None => throw NotFoundError
  end.

(** [Promise.all] of two started promises: both run against the store;
    the result is the pair when both fulfil, else the rejection that
    settles first ([leftFirst] says which of two rejections does). *)
Definition promiseAll2 {A B} (leftFirst : bool) (p : M A) (q : M B) : M (A * B) :=
  fun w =>
    let '(ra, w1) := p w in
    let '(rb, w2) := q w1 in
    match ra, rb with
    | Ok a, Ok b => (Ok (a, b), w2)
    | Err e, Ok _ => (Err e, w2)
    | Ok _, Err e => (Err e, w2)
    | Err e1, Err e2 => (Err (if leftFirst then e1 else e2), w2)
    end.

(** [cidToDirectory] (cid-to-directory.ts): the entry the exporter
    returns is refused unless its [type] is [directory]; the match on
    the block is that test and the reading of [entry.node] at once. *)
Definition cidToDirectory (c : CID) : M Directory :=
  do entry <- exporter c;
  match entry with
  | DirectoryBlock n => ret (mkDirectory c n)
  | _ => throw (NotADirectoryError c)
  end.

(** [name.includes('/')] *)
Fixpoint includesSlash (name : string) : bool :=
  match name with
  | EmptyString => false
  | String c rest =>
    if Ascii.eqb c (Ascii.ascii_of_nat 47) then true else includesSlash rest
  end.

Section Engine.

(** Protocol constants of the shard layout: the fan-out is
    [2 ^ fanOutBits], [hashFn] is the fixed published name hash and
    [maxDepth] the number of [fanOutBits]-wide segments it offers. *)
Variable fanOutBits : N.
Variable hashFn : string -> N.
Variable maxDepth : nat.

Definition fanOut : nat := N.to_nat (2 ^ fanOutBits).

(** Modelled from the spec: bucket placement of section 4.2, the
    hash of the name sliced into [fanOutBits]-bit segments, segment
    [depth] selected. *)
Definition bucketIndex (name : string) (depth : nat) : nat :=
  N.to_nat (N.land (N.shiftr (hashFn name) (fanOutBits * N.of_nat depth))
                   (N.ones fanOutBits)).

Definition emptyShard : ShardNode := replicate fanOut None.

(** Modelled from the spec: insertion into a shard node (section
    4.2).  An empty bucket takes the link; a bucket holding a link of
    another name becomes a sub-shard one level down that receives the
    old and the new link; a sub-shard is descended into.  A link of
    the same name is replaced.  [fuel] counts the hash segments still
    unused: with none left the insertion has no result. *)
Fixpoint shardPut (fuel depth : nat) (l : PBLink) (node : ShardNode)
  : option ShardNode :=
  match fuel with
  | O => None
  | S fuel' =>
    let i := bucketIndex (Name l) depth in
    match node !! i with
    | None => None
    | Some None => Some (<[i := Some (EntryLink l)]> node)
    | Some (Some (EntryLink l')) =>
      if decide (Name l' = Name l)
      then Some (<[i := Some (EntryLink l)]> node)
      else
        sub ← shardPut fuel' (S depth) l' emptyShard;
        sub' ← shardPut fuel' (S depth) l sub;
        Some (<[i := Some (EntryShard sub')]> node)
    | Some (Some (EntryShard sub)) =>
      sub' ← shardPut fuel' (S depth) l sub;
      Some (<[i := Some (EntryShard sub')]> node)
    end
  end.

(** What one insertion does to the bucket it lands in. *)
Definition putSlot (fuel depth : nat) (l : PBLink) (slot : option ShardEntry)
  : option ShardEntry :=
  match slot with
  | None => Some (EntryLink l)
  | Some (EntryLink l') =>
    if decide (Name l' = Name l) then Some (EntryLink l)
    else sub ← shardPut fuel (S depth) l' emptyShard;
         sub' ← shardPut fuel (S depth) l sub;
         Some (EntryShard sub')
  | Some (EntryShard sub) => EntryShard <$> shardPut fuel (S depth) l sub
  end.

(** Modelled from the spec: [getLink] on a shard, following the
    buckets the name hashes to. *)
Fixpoint shardGet (fuel depth : nat) (name : string) (node : ShardNode)
  : option PBLink :=
  match fuel with
  | O => None
  | S fuel' =>
    match node !! bucketIndex name depth with
    | Some (Some (EntryLink l)) =>
      if decide (Name l = name) then Some l else None
    | Some (Some (EntryShard sub)) => shardGet fuel' (S depth) name sub
    | _ => None
    end
  end.

(** What a bucket says about a name. *)
Definition getSlot (fuel depth : nat) (name : string) (slot : option (option ShardEntry))
  : option PBLink :=
  match slot with
  | Some (Some (EntryLink l)) => if decide (Name l = name) then Some l else None
  | Some (Some (EntryShard sub)) => shardGet fuel (S depth) name sub
  | _ => None
  end.

(** Modelled from the spec: removal from a shard node (section 4.2);
    [None] when the name is absent. *)
Fixpoint shardRemove (fuel depth : nat) (name : string) (node : ShardNode)
  : option ShardNode :=
  match fuel with
  | O => None
  | S fuel' =>
    let i := bucketIndex name depth in
    match node !! i with
    | Some (Some (EntryLink l)) =>
      if decide (Name l = name) then Some (<[i := None]> node) else None
    | Some (Some (EntryShard sub)) =>
      sub' ← shardRemove fuel' (S depth) name sub;
      Some (<[i := collapse sub']> node)
    | _ => None
    end
  end.

(** Every link under [node], [fuel] levels down, satisfies [P]. *)
Fixpoint shardForall (P : PBLink -> Prop) (fuel : nat) (node : ShardNode) : Prop :=
  match fuel with
  | O => True
  | S fuel' =>
    forall i e, node !! i = Some (Some e) ->
                match e with
                | EntryLink l => P l
                | EntryShard sub => shardForall P fuel' sub
                end
  end.

(** The shape of a shard node at [depth] with [fuel] hash segments
    left: a full row of buckets, every link in the bucket its name
    hashes to at every level, and no sub-shard below the last
    segment. *)
Fixpoint placed (fuel depth : nat) (node : ShardNode) : Prop :=
  match fuel with
  | O => False
  | S fuel' =>
    length node = fanOut /\
    forall i e, node !! i = Some (Some e) ->
                match e with
                | EntryLink l => bucketIndex (Name l) depth = i
                | EntryShard sub =>
                  placed fuel' (S depth) sub /\
                  shardForall (fun l => bucketIndex (Name l) depth = i) fuel' sub
                end
  end.

(** Two names are told apart by one of the [maxDepth] hash segments. *)
Definition separated (a b : string) : Prop :=
  exists depth, depth < maxDepth /\ bucketIndex a depth <> bucketIndex b depth.

(** Modelled from the spec: conversion flat to sharded (section 4.2),
    every link re-inserted into a fresh empty shard root. *)
Definition convertToShardedDirectory (links : list PBLink) : option ShardNode :=
  foldl (fun acc l => acc ≫= shardPut maxDepth 0 l) (Some emptyShard) links.

(** *** The link table of a directory *)

(** The codec and the constants that are not among the sources:
    [serializedSize] is the size of the encoded node, [digest] the
    hash of its bytes, [cumulativeSize] the size of the subtree under
    a block, [SHARD_SPLIT_THRESHOLD_BYTES] the constant of
    utils/constants.ts. *)
Variable serializedSize : PBNode -> N.
Variable digest : PBNode -> positive.
Variable cumulativeSize : Block -> N.
Variable SHARD_SPLIT_THRESHOLD_BYTES : N.

(** Which of two rejections inside [Promise.all] settles first. *)
Variable raceLeftFirst : bool.

(** The CID of a node at a CID version. *)
Definition cidOf (v : Version) (n : PBNode) : CID := mkCID v (digest n).

(** Modelled from the spec: the link table of a flat node under
    [addLink] (section 4.1).  A link of a name that is there replaces
    the old one in its place; a link of a new name goes last. *)
Definition hasLink (name : string) (links : list PBLink) : bool :=
  existsb (fun l => bool_decide (Name l = name)) links.

Definition replaceLink (child : PBLink) (links : list PBLink) : list PBLink :=
  map (fun l => if decide (Name l = Name child) then child else l) links.

Definition insertLink (child : PBLink) (links : list PBLink) : list PBLink :=
  if hasLink (Name child) links then replaceLink child links
  else links ++ [child].

(** Modelled from the spec: [getLink] of section 4.1. *)
Definition getLink (n : PBNode) (name : string) : option PBLink :=
  match n with
  | FlatNode links => find (fun l => bool_decide (Name l = name)) links
  | ShardedNode root => shardGet maxDepth 0 name root
  end.

(** Modelled from the spec: the size test of [addLink] (section 4.1),
    the candidate strictly over [shardSplitThresholdBytes]; without a
    threshold nothing is over it. *)
Definition isOverShardThreshold (candidate : PBNode) (threshold : JSValue) : bool :=
  match threshold with
  | VNumber t => (t <? serializedSize candidate)%N
  | _ => false
  end.

(** Modelled from the spec: [addLink] of section 4.1 on the node.  A
    link of the same name is refused unless [allowOverwriting], in
    which case it is replaced; a flat candidate over the threshold is
    converted to a shard tree. *)
Definition addLinkNode (n : PBNode) (child : PBLink)
           (allowOverwriting : bool) (threshold : JSValue) : result PBNode :=
  match n with
  | FlatNode links =>
    if hasLink (Name child) links && negb allowOverwriting
    then Err AlreadyExistsError
    else
      let candidate := insertLink child links in
      if isOverShardThreshold (FlatNode candidate) threshold then
        match convertToShardedDirectory candidate with
        | Some root => Ok (ShardedNode root)
        | None => Err HashExhaustedError
        end
      else Ok (FlatNode candidate)
  | ShardedNode root =>
    if bool_decide (is_Some (shardGet maxDepth 0 (Name child) root))
       && negb allowOverwriting
    then Err AlreadyExistsError
    else
      match shardPut maxDepth 0 child root with
      | Some root' => Ok (ShardedNode root')
      | None => Err HashExhaustedError
      end
  end.

(** Modelled from the spec: [removeLink] of section 4.1 on the node.
    It fails when the name is absent and never converts a shard tree
    back to a flat node. *)
Definition removeLinkNode (n : PBNode) (name : string) : result PBNode :=
  match n with
  | FlatNode links =>
    if hasLink name links
    then Ok (FlatNode (filter (fun l => Name l <> name) links))
    else Err NotFoundError
  | ShardedNode root =>
    match shardRemove maxDepth 0 name root with
    | Some root' => Ok (ShardedNode root')
    | None => Err NotFoundError
    end
  end.

(** Modelled from the spec: writing a node (sections 3 and 4.1).  It
    is stored under its CID at the chosen CID version and returned with
    it; nothing is changed in place. *)
Definition persist (v : Version) (n : PBNode) : M Directory :=
  let c := cidOf v n in
  do _ <- blockPut c (DirectoryBlock n);
  ret (mkDirectory c n).

(** Modelled from the spec: [addLink] (utils/add-link.ts is not among
    the sources).  It reads [allowOverwriting], [cidVersion] and
    [shardSplitThresholdBytes] from its options, writes the new node
    to the block store and returns it with its CID. *)
Definition addLink (parent : Directory) (child : PBLink)
           (options : gmap string JSValue) : M Directory :=
  match addLinkNode (node parent) child
          (truthy (prop options "allowOverwriting"))
          (prop options "shardSplitThresholdBytes") with
  | Err e => throw e
  | Ok n => persist (cidVersionOf (prop options "cidVersion")) n
  end.

(** Modelled from the spec: [removeLink] (utils/remove-link.ts is not
    among the sources). *)
Definition removeLink (parent : Directory) (name : string)
           (options : gmap string JSValue) : M Directory :=
  match removeLinkNode (node parent) name with
  | Err e => throw e
  | Ok n => persist (cidVersionOf (prop options "cidVersion")) n
  end.

(** Modelled from the spec: the link projection of section 4.4
    (utils/cid-to-pblink.ts is not among the sources). *)
Definition cidToPBLink (c : CID) (name : string) : M PBLink :=
  do entry <- exporter c;
  ret (mkLink name (cumulativeSize entry) c).

(** *** The commands *)

(** [defaultOptions] of cp.ts. *)
Definition cpDefaultOptions : gmap string JSValue :=
  <["force" := VBool false]>
    (<["shardSplitThresholdBytes" := VNumber SHARD_SPLIT_THRESHOLD_BYTES]> ∅).

(** The options [cp] hands to [addLink]:
    [{ allowOverwriting: opts.force, cidVersion: target.version, ...opts }]. *)
Definition cpAddLinkOptions (target : CID) (opts : gmap string JSValue)
  : gmap string JSValue :=
  opts ∪ <["allowOverwriting" := prop opts "force"]>
           (<["cidVersion" := versionNumber (version target)]> ∅).

(** [cp] (cp.ts). *)
Definition cp (source target : CID) (name : string)
           (options : gmap string JSValue) : M CID :=
  let opts := mergeOptions cpDefaultOptions options in
  if includesSlash name
  then throw (InvalidParametersError "Name must not have slashes")
  else
    do dl <- promiseAll2 raceLeftFirst
               (cidToDirectory target) (cidToPBLink source name);
    do result <- addLink dl.1 dl.2 (cpAddLinkOptions target opts);
    ret (cid result).

(** [defaultOptions] of rm.ts. *)
Definition rmDefaultOptions : gmap string JSValue :=
  <["shardSplitThresholdBytes" := VNumber SHARD_SPLIT_THRESHOLD_BYTES]> ∅.

(** The options [rm] hands to [removeLink]:
    [{ ...opts, cidVersion: target.version }]. *)
Definition rmRemoveLinkOptions (target : CID) (opts : gmap string JSValue)
  : gmap string JSValue :=
  <["cidVersion" := versionNumber (version target)]> opts.

(** [rm] (rm.ts). *)
Definition rm (target : CID) (name : string)
           (options : gmap string JSValue) : M CID :=
  let opts := mergeOptions rmDefaultOptions options in
  if includesSlash name
  then throw (InvalidParametersError "Name must not have slashes")
  else
    do directory <- cidToDirectory target;
    do result <- removeLink directory name (rmRemoveLinkOptions target opts);
    ret (cid result).

(** *** Path resolution and ancestor rewriting *)

(** Modelled from the spec: step 2 of section 4.3 (the path resolver is
    not among the sources).  Each segment is looked up as a link of the
    current directory and resolved; the directories passed are recorded
    with the segment taken, innermost first. *)
Fixpoint descend (current : Directory) (segments : list string)
         (stack : list (Directory * string))
  : M (list (Directory * string) * Directory) :=
  match segments with
  | [] => ret (stack, current)
  | segment :: rest =>
    match getLink (node current) segment with
    | None => throw PathSegmentNotFoundError
    | Some l =>
      do entry <- exporter (Hash l);
      match entry with
      | DirectoryBlock n =>
        descend (mkDirectory (Hash l) n) rest ((current, segment) :: stack)
      | _ => throw PathSegmentNotADirectoryError
      end
    end
  end.

(** Modelled from the spec: step 4 of section 4.3.  Every recorded
    ancestor, innermost first, gets the link of its segment rewritten
    to the new child with [allowOverwriting]; the last directory
    written is the new root. *)
Fixpoint rewriteAncestors (stack : list (Directory * string)) (child : Directory)
         (options : gmap string JSValue) : M Directory :=
  match stack with
  | [] => ret child
  | (ancestor, segment) :: rest =>
    do ancestor' <- addLink ancestor
                      (mkLink segment
                              (cumulativeSize (DirectoryBlock (node child)))
                              (cid child))
                      (<["allowOverwriting" := VBool true]> options);
    rewriteAncestors rest ancestor' options
  end.

(** Modelled from the spec: step 3 of section 4.3, a single mutation
    of the innermost directory: a change of its node, written to the
    store as a new node. *)
Definition mutate (change : PBNode -> result PBNode)
           (options : gmap string JSValue) (target : Directory) : M Directory :=
  match change (node target) with
  | Err e => throw e
  | Ok n => persist (cidVersionOf (prop options "cidVersion")) n
  end.

(** Modelled from the spec: the state machine of section 4.3, from the
    root CID along the segments to the directory to change and back up
    to a new root CID. *)
Definition updatePath (root : CID) (segments : list string)
           (change : PBNode -> result PBNode)
           (options : gmap string JSValue) : M CID :=
  do current <- cidToDirectory root;
  do found <- descend current segments [];
  do target' <- mutate change options found.2;
  do root' <- rewriteAncestors found.1 target' options;
  ret (cid root').

(** The directories along a path, root first, as the store holds
    them. *)
Fixpoint resolvePath (store : gmap CID Block) (c : CID) (segments : list string)
  : option (list Directory) :=
  match store !! c with
  | Some (DirectoryBlock n) =>
    match segments with
    | [] => Some [mkDirectory c n]
    | segment :: rest =>
      l ← getLink n segment;
      chain ← resolvePath store (Hash l) rest;
      Some (mkDirectory c n :: chain)
    end
  | _ => None
  end.

(** A content-addressed store holds every directory node under the
    digest of the node. *)
Definition contentAddressed (store : gmap CID Block) : Prop :=
  map_Forall (fun c b => match b with
                         | DirectoryBlock n => multihash c = digest n
                         | _ => True
                         end) store.

(** The store holds the node of [d] under the CID of [d]. *)
Definition stored (store : gmap CID Block) (d : Directory) : Prop :=
  store !! cid d = Some (DirectoryBlock (node d)).

(** What a rewrite along [segments] leaves between the directories on
    the path before ([old]) and after ([new]), root first: every
    directory has a new CID, and every ancestor answers [getLink] as
    before for the names off the path, so that the subtrees beside the
    path keep their CIDs. *)
Fixpoint pathChanged (segments : list string) (old new : list Directory) : Prop :=
  match segments, old, new with
  | [], [d], [d'] => cid d' <> cid d
  | segment :: rest, d :: old', d' :: new' =>
    cid d' <> cid d /\
    (forall name, name <> segment ->
                  getLink (node d') name = getLink (node d) name) /\
    pathChanged rest old' new'
  | _, _, _ => False
  end.

(** The invariant of a flat directory node: link names pairwise
    distinct. *)
Definition distinctNames (n : PBNode) : Prop :=
  match n with
  | FlatNode links => NoDup (Name <$> links)
  | ShardedNode _ => True
  end.

(** A recorded stack against the store, innermost ancestor first: each
    ancestor is stored, keeps its names distinct and holds under its
    segment the link to the directory below it ([below] for the
    innermost). *)
Inductive stackLinked (store : gmap CID Block)
  : list (Directory * string) -> CID -> Prop :=
| stackLinked_nil below : stackLinked store [] below
| stackLinked_cons ancestor segment rest below l :
    stored store ancestor ->
    distinctNames (node ancestor) ->
    getLink (node ancestor) segment = Some l ->
    Hash l = below ->
    stackLinked store rest (cid ancestor) ->
    stackLinked store ((ancestor, segment) :: rest) below.

End Engine.

(** A shard tree in the shape insertion gives it (a flat node has no
    shape to keep). *)
Definition wellShaped (fanOutBits : N) (hashFn : string -> N) (maxDepth : nat)
           (n : PBNode) : Prop :=
  match n with
  | FlatNode _ => True
  | ShardedNode root => placed fanOutBits hashFn maxDepth 0 root
  end.

(** A directory node whose conversion to a shard tree has a result:
    a hash segment tells apart every two names of a flat node (a shard
    tree is converted already). *)
Definition convertible (fanOutBits : N) (hashFn : string -> N) (maxDepth : nat)
           (n : PBNode) : Prop :=
  match n with
  | FlatNode links =>
    forall a b, a ∈ links -> b ∈ links -> Name a <> Name b ->
                separated fanOutBits hashFn maxDepth (Name a) (Name b)
  | ShardedNode _ => True
  end.

(** * A reference instance *)

(** Concrete protocol constants and a concrete codec, to run the
    engine on: fan-out 2, four hash segments, a polynomial name hash,
    sizes of 40 bytes a link, and as digest the code of the node as a
    tree (no two nodes share it). *)
Module Demo.

Definition fanOutBits : N := 1.
Definition maxDepth : nat := 4.

Definition hashFn (s : string) : N :=
  foldr (fun c acc => Ascii.N_of_ascii c + 31 * acc)%N 7%N
        (String.list_ascii_of_string s).

Definition serializedSize (n : PBNode) : N :=
  match n with
  | FlatNode links => 4 + 40 * N.of_nat (length links)
  | ShardedNode root => 4 + 40 * N.of_nat (length (occupied root))
  end.

Definition cumulativeSize (b : Block) : N :=
  match b with
  | DirectoryBlock n => serializedSize n
  | FileBlock s => s
  | RawBlock s => s
  | _ => 0
  end.

Definition threshold : N := 100.

Definition linkCode (l : PBLink) : list positive :=
  [encode (Name l); encode (Tsize l); encode (Hash l)].

Definition linkOfCode (code : list positive) : option PBLink :=
  match code with
  | [name; size; hash] =>
    name ← decode name; size ← decode size; hash ← decode hash;
    Some (mkLink name size hash)
  | _ => None
  end.

#[global] Instance PBLink_countable : Countable PBLink.
Proof.
  refine (inj_countable linkCode linkOfCode _).
  intros [name size hash].
  lazy beta iota delta [linkCode linkOfCode Name Tsize Hash].
  rewrite !decode_encode. reflexivity.
Defined.

Fixpoint entryTree (e : ShardEntry) : gen_tree PBLink :=
  match e with
  | EntryLink l => GenLeaf l
  | EntryShard buckets =>
    GenNode 0 (map (fun o => match o with
                             | None => GenNode 1 []
                             | Some e' => GenNode 2 [entryTree e']
                             end) buckets)
  end.

Definition nodeTree (n : PBNode) : gen_tree PBLink :=
  match n with
  | FlatNode links => GenNode 3 (GenLeaf <$> links)
  | ShardedNode root => GenNode 4 [entryTree (EntryShard root)]
  end.

Definition digest (n : PBNode) : positive := encode (nodeTree n).

(** A file, and a directory that holds it as [bar]. *)
Definition fileCid : CID := mkCID V1 11.
Definition barLink : PBLink := mkLink "bar" 4 fileCid.
Definition fooLink : PBLink := mkLink "foo.txt" 4 fileCid.
Definition bazLink : PBLink := mkLink "baz" 4 fileCid.
Definition barDir : PBNode := FlatNode [barLink].
Definition dirCid : CID := cidOf digest V0 barDir.

(** A tree three levels deep, [a/b/c], with a file beside each
    directory of the path. *)
Definition leafDir : PBNode := FlatNode [barLink].
Definition leafCid : CID := cidOf digest V1 leafDir.
Definition dirB : PBNode := FlatNode [mkLink "c" 44 leafCid; bazLink].
Definition cidB : CID := cidOf digest V1 dirB.
Definition dirA : PBNode := FlatNode [bazLink; mkLink "b" 84 cidB].
Definition cidA : CID := cidOf digest V1 dirA.
Definition rootDir : PBNode := FlatNode [mkLink "a" 84 cidA; barLink].
Definition rootCid : CID := cidOf digest V1 rootDir.

(** A sharded directory of three links. *)
Definition shardedRoot : ShardNode :=
  default [] (convertToShardedDirectory fanOutBits hashFn maxDepth
                                        [barLink; fooLink; bazLink]).
Definition shardedDir : PBNode := ShardedNode shardedRoot.
Definition shardedCid : CID := cidOf digest V1 shardedDir.

Definition world : World :=
  mkWorld (<[shardedCid := DirectoryBlock shardedDir]>
          (<[dirCid := DirectoryBlock barDir]>
          (<[rootCid := DirectoryBlock rootDir]>
             (<[cidA := DirectoryBlock dirA]>
                (<[cidB := DirectoryBlock dirB]>
                   (<[leafCid := DirectoryBlock leafDir]>
                      (<[fileCid := FileBlock 4]> ∅)))))))
          [].

(** Adding [foo.txt] to the directory at the end of a path. *)
Definition addFoo (n : PBNode) : result PBNode :=
  addLinkNode fanOutBits hashFn maxDepth serializedSize n fooLink false
              (VNumber threshold).

(** The value a run returned ([d] when it failed). *)
Definition returned {A} (d : A) (r : result A) : A :=
  match r with Ok a => a | Err _ => d end.

(** The path [a/b/c] after [foo.txt] is added at its end. *)
Definition updated : result CID * World :=
  updatePath fanOutBits hashFn maxDepth serializedSize digest cumulativeSize
             rootCid ["a"; "b"; "c"] addFoo ∅ world.

Definition updatedRoot : CID := returned rootCid (fst updated).

Definition updatedWorld : World := snd updated.

End Demo.

(** * Properties of the shard engine *)

Section EngineFacts.

Variable fanOutBits : N.
Variable hashFn : string -> N.

Local Abbreviation put := (shardPut fanOutBits hashFn).
Local Abbreviation idx := (bucketIndex fanOutBits hashFn).
Local Abbreviation empty := (emptyShard fanOutBits).
Local Abbreviation pslot := (putSlot fanOutBits hashFn).

Lemma shardPut_slot fuel depth l (node : ShardNode) :
  put (S fuel) depth l node =
  slot ← node !! idx (Name l) depth;
  e ← pslot fuel depth l slot;
  Some (<[idx (Name l) depth := Some e]> node).
Proof.
  simpl. destruct (node !! idx (Name l) depth) as [[[l'|sub]|]|]; simpl; try done.
  - case_decide; simpl; [done|].
    destruct (put fuel (S depth) l' empty) as [s|]; simpl; [|done].
    by destruct (put fuel (S depth) l s).
  - by destruct (put fuel (S depth) l sub).
Qed.

Local Arguments shardPut : simpl never.
Local Arguments putSlot : simpl never.

Lemma shardPut_overwrite fuel : forall depth l l' (node : ShardNode),
  Name l' = Name l ->
  put fuel depth l' node ≫= put fuel depth l = put fuel depth l node.
Proof.
  induction fuel as [|fuel IH]; intros depth l l' node Hn; [done|].
  rewrite !shardPut_slot, Hn.
  destruct (node !! idx (Name l) depth) as [slot|] eqn:Hslot; simpl; [|done].
  assert (Hlt : idx (Name l) depth < length node) by (by eapply lookup_lt_Some).
  assert (Hs : pslot fuel depth l' slot ≫= (fun e => pslot fuel depth l (Some e))
               = pslot fuel depth l slot).
  { unfold putSlot. destruct slot as [[l''|sub]|]; simpl.
    - rewrite Hn. case_decide; simpl.
      + rewrite Hn. by rewrite decide_True.
      + destruct (put fuel (S depth) l'' empty) as [s|]; simpl; [|done].
        rewrite <- (IH (S depth) l l' s Hn).
        by destruct (put fuel (S depth) l' s).
    - rewrite <- (IH (S depth) l l' sub Hn).
      by destruct (put fuel (S depth) l' sub).
    - by rewrite decide_True. }
  rewrite <- Hs.
  destruct (pslot fuel depth l' slot) as [e|]; simpl; [|done].
  rewrite shardPut_slot, list_lookup_insert_eq by done. simpl.
  destruct (pslot fuel depth l (Some e)); simpl; [|done].
  by rewrite list_insert_insert_eq.
Qed.

Local Ltac close_puts IH :=
  simpl in *; try rewrite IH; try rewrite <- IH;
  repeat match goal with
         | |- context [shardPut ?b ?h ?f ?d ?l ?n] => destruct (shardPut b h f d l n)
         end;
  done.

(** Two insertions at one bucket, seen from the bucket. *)
Lemma putSlot_comm fuel depth l1 l2 slot :
  (forall d l l' (n : ShardNode), Name l' = Name l ->
     put fuel d l' n ≫= put fuel d l = put fuel d l n) ->
  (forall d (n : ShardNode),
     put fuel d l1 n ≫= put fuel d l2 = put fuel d l2 n ≫= put fuel d l1) ->
  Name l1 <> Name l2 ->
  pslot fuel depth l1 slot ≫= (fun e => pslot fuel depth l2 (Some e)) =
  pslot fuel depth l2 slot ≫= (fun e => pslot fuel depth l1 (Some e)).
Proof.
  intros Hov IH Hne. unfold putSlot.
  destruct slot as [[l'|sub]|]; simpl.
  - destruct (decide (Name l' = Name l1)) as [E1|N1];
      destruct (decide (Name l' = Name l2)) as [E2|N2]; simpl.
    + congruence.
    + rewrite decide_False by done.
      rewrite <- (Hov (S depth) l1 l' empty E1).
      destruct (put fuel (S depth) l' empty) as [s|]; simpl; [|done].
      specialize (IH (S depth) s).
      destruct (put fuel (S depth) l1 s) as [s1|], (put fuel (S depth) l2 s) as [s2|];
        close_puts IH.
    + rewrite decide_False by done.
      rewrite <- (Hov (S depth) l2 l' empty E2).
      destruct (put fuel (S depth) l' empty) as [s|]; simpl; [|done].
      specialize (IH (S depth) s).
      destruct (put fuel (S depth) l1 s) as [s1|], (put fuel (S depth) l2 s) as [s2|];
        close_puts IH.
    + destruct (put fuel (S depth) l' empty) as [s|]; simpl; [|done].
      specialize (IH (S depth) s).
      destruct (put fuel (S depth) l1 s) as [s1|], (put fuel (S depth) l2 s) as [s2|];
        close_puts IH.
  - specialize (IH (S depth) sub).
    destruct (put fuel (S depth) l1 sub) as [s1|], (put fuel (S depth) l2 sub) as [s2|];
      close_puts IH.
  - rewrite !decide_False by done.
    specialize (IH (S depth) empty).
    destruct (put fuel (S depth) l1 empty) as [s1|], (put fuel (S depth) l2 empty) as [s2|];
      close_puts IH.
Qed.

(** Insertions of links of different names commute, failures
    included: the shard depends on the links, not on their order. *)
Lemma shardPut_comm fuel : forall depth l1 l2 (node : ShardNode),
  Name l1 <> Name l2 ->
  put fuel depth l1 node ≫= put fuel depth l2 =
  put fuel depth l2 node ≫= put fuel depth l1.
Proof.
  induction fuel as [|fuel IH]; intros depth l1 l2 node Hne; [done|].
  rewrite (shardPut_slot fuel depth l1 node), (shardPut_slot fuel depth l2 node).
  destruct (decide (idx (Name l1) depth = idx (Name l2) depth)) as [Ei|Ni].
  - rewrite <- Ei.
    destruct (node !! idx (Name l1) depth) as [slot|] eqn:Hslot; simpl; [|done].
    assert (Hlt : idx (Name l1) depth < length node) by (by eapply lookup_lt_Some).
    pose proof (putSlot_comm fuel depth l1 l2 slot
                  (fun d l l' n => shardPut_overwrite fuel d l l' n)
                  (fun d n => IH d l1 l2 n Hne) Hne) as Hs.
    destruct (pslot fuel depth l1 slot) as [e1|],
             (pslot fuel depth l2 slot) as [e2|]; simpl in *.
    + rewrite !shardPut_slot, <- Ei, !list_lookup_insert_eq by done. simpl.
      rewrite Hs.
      destruct (pslot fuel depth l1 (Some e2)); simpl; [|done].
      by rewrite !list_insert_insert_eq.
    + rewrite shardPut_slot, <- Ei, list_lookup_insert_eq by done. simpl.
      by rewrite Hs.
    + rewrite shardPut_slot, list_lookup_insert_eq by done. simpl.
      by rewrite <- Hs.
    + done.
  - destruct (node !! idx (Name l1) depth) as [s1|] eqn:H1;
      destruct (node !! idx (Name l2) depth) as [s2|] eqn:H2; simpl.
    + destruct (pslot fuel depth l1 s1) as [e1|] eqn:P1,
               (pslot fuel depth l2 s2) as [e2|] eqn:P2; simpl;
        rewrite ?shardPut_slot, ?list_lookup_insert_ne, ?H1, ?H2 by done; simpl;
        rewrite ?P1, ?P2; simpl; try done.
      by rewrite list_insert_insert_ne.
    + destruct (pslot fuel depth l1 s1) as [e1|]; simpl; [|done].
      by rewrite shardPut_slot, list_lookup_insert_ne, H2.
    + destruct (pslot fuel depth l2 s2) as [e2|]; simpl; [|done].
      by rewrite shardPut_slot, list_lookup_insert_ne, H1.
    + done.
Qed.

Lemma shardPut_idem fuel depth l (node node' : ShardNode) :
  put fuel depth l node = Some node' -> put fuel depth l node' = Some node'.
Proof.
  intros Hput. pose proof (shardPut_overwrite fuel depth l l node eq_refl) as Hov.
  by rewrite Hput in Hov.
Qed.

(** Inserting a row of links, as the conversion does. *)
Local Abbreviation putAll fuel :=
  (foldl (fun acc l => acc ≫= put fuel 0 l)).

Lemma putAll_None fuel links : putAll fuel None links = None.
Proof. by induction links. Qed.

(** The order of a row of links of different names does not matter. *)
Lemma putAll_perm fuel (links1 links2 : list PBLink) :
  links1 ≡ₚ links2 ->
  NoDup (Name <$> links1) ->
  forall acc, putAll fuel acc links1 = putAll fuel acc links2.
Proof.
  induction 1 as [|x l l' Hp IH|x y l|l l' l'' Hp1 IH1 Hp2 IH2]; intros Hnd acc.
  - done.
  - simpl. apply IH. by inversion Hnd.
  - simpl. f_equal. destruct acc as [node|]; [|done]. simpl.
    apply shardPut_comm.
    inversion Hnd as [|? ? Hnotin _]. simpl in Hnotin.
    intros Heq. apply Hnotin. rewrite Heq. left.
  - rewrite IH1 by done. apply IH2.
    by rewrite <- Hp1.
Qed.

(** Once a link is in, inserting it again after further links changes
    nothing, provided the further links of its name are the link
    itself. *)
Lemma putAll_absorb fuel child : forall (links : list PBLink) acc,
  (forall l, l ∈ links -> Name l = Name child -> l = child) ->
  putAll fuel (acc ≫= put fuel 0 child) links ≫= put fuel 0 child =
  putAll fuel (acc ≫= put fuel 0 child) links.
Proof.
  induction links as [|x links IH]; intros acc Hsame; simpl.
  - destruct acc as [node|]; [|done]. simpl.
    destruct (put fuel 0 child node) as [node'|] eqn:Hput; [|done]. simpl.
    by apply shardPut_idem in Hput.
  - destruct (decide (Name x = Name child)) as [Heq|Hne].
    + rewrite (Hsame x) by (done || left).
      apply (IH (acc ≫= put fuel 0 child)).
      intros l Hl. apply Hsame. by right.
    + assert (Hc : (acc ≫= put fuel 0 child) ≫= put fuel 0 x =
                   (acc ≫= put fuel 0 x) ≫= put fuel 0 child).
      { destruct acc as [node|]; [|done]. simpl.
        by apply shardPut_comm. }
      rewrite Hc. apply IH.
      intros l Hl. apply Hsame. by right.
Qed.

Lemma putAll_app fuel (l1 l2 : list PBLink) acc :
  putAll fuel acc (l1 ++ l2) = putAll fuel (putAll fuel acc l1) l2.
Proof. apply foldl_app. Qed.

(** A shard built from a row that holds [child] absorbs [child]. *)
Lemma putAll_absorb_elem fuel child (links : list PBLink) (root : ShardNode) :
  child ∈ links ->
  (forall l, l ∈ links -> Name l = Name child -> l = child) ->
  putAll fuel (Some empty) links = Some root ->
  put fuel 0 child root = Some root.
Proof.
  intros Hin Hsame Hroot.
  apply list_elem_of_split in Hin as (pre & post & ->).
  rewrite putAll_app in Hroot. simpl in Hroot.
  pose proof (putAll_absorb fuel child post (putAll fuel (Some empty) pre)) as Hab.
  rewrite Hroot in Hab. simpl in Hab. apply Hab.
  intros l Hl. apply Hsame. rewrite elem_of_app. right. by right.
Qed.

Local Abbreviation get := (shardGet fanOutBits hashFn).
Local Abbreviation gslot := (getSlot fanOutBits hashFn).

Lemma shardGet_empty fuel depth name : get fuel depth name empty = None.
Proof.
  destruct fuel; [done|]. simpl. unfold emptyShard.
  destruct (replicate _ _ !! _) as [o|] eqn:Hl; [|done].
  by apply lookup_replicate in Hl as [-> _].
Qed.

Lemma shardGet_slot fuel depth name (node : ShardNode) :
  get (S fuel) depth name node = gslot fuel depth name (node !! idx name depth).
Proof. done. Qed.

Local Arguments shardGet : simpl never.

(** An inserted link is found under its name. *)
Lemma shardGet_put_same fuel : forall depth l (node node' : ShardNode),
  put fuel depth l node = Some node' ->
  get fuel depth (Name l) node' = Some l.
Proof.
  induction fuel as [|fuel IH]; intros depth l node node' Hput; [done|].
  rewrite shardPut_slot in Hput. rewrite shardGet_slot.
  destruct (node !! idx (Name l) depth) as [slot|] eqn:Hslot; [|done].
  assert (Hlt : idx (Name l) depth < length node) by (by eapply lookup_lt_Some).
  simpl in Hput.
  destruct (pslot fuel depth l slot) as [e|] eqn:He; [|done].
  simpl in Hput. injection Hput as <-.
  rewrite list_lookup_insert_eq by done.
  unfold putSlot in He. destruct slot as [[l'|sub]|]; simpl in *.
  - case_decide.
    + injection He as <-. simpl. by rewrite decide_True.
    + destruct (put fuel (S depth) l' empty) as [s|]; [|done]. simpl in He.
      destruct (put fuel (S depth) l s) as [s'|] eqn:Hs'; [|done].
      injection He as <-. simpl. by eapply IH.
  - destruct (put fuel (S depth) l sub) as [s'|] eqn:Hs'; [|done].
    injection He as <-. simpl. by eapply IH.
  - injection He as <-. simpl. by rewrite decide_True.
Qed.

(** The links of other names are found as before the insertion. *)
Lemma shardGet_put_other fuel : forall depth l name (node node' : ShardNode),
  name <> Name l ->
  put fuel depth l node = Some node' ->
  get fuel depth name node' = get fuel depth name node.
Proof.
  induction fuel as [|fuel IH]; intros depth l name node node' Hne Hput; [done|].
  rewrite shardPut_slot in Hput. rewrite !shardGet_slot.
  destruct (node !! idx (Name l) depth) as [slot|] eqn:Hslot; [|done].
  assert (Hlt : idx (Name l) depth < length node) by (by eapply lookup_lt_Some).
  simpl in Hput.
  destruct (pslot fuel depth l slot) as [e|] eqn:He; [|done].
  simpl in Hput. injection Hput as <-.
  destruct (decide (idx (Name l) depth = idx name depth)) as [Ei|Ni];
    [|by rewrite list_lookup_insert_ne].
  rewrite <- Ei, list_lookup_insert_eq, Hslot by done.
  unfold putSlot in He. destruct slot as [[l'|sub]|]; simpl in *.
  - case_decide as Hn.
    + injection He as <-. simpl.
      rewrite !decide_False; [done|congruence|congruence].
    + destruct (put fuel (S depth) l' empty) as [s|] eqn:Hs; [|done]. simpl in He.
      destruct (put fuel (S depth) l s) as [s'|] eqn:Hs'; [|done].
      injection He as <-. simpl.
      rewrite (IH _ _ _ _ _ Hne Hs').
      case_decide as Hl'.
      * rewrite <- Hl'. by eapply shardGet_put_same.
      * rewrite (IH (S depth) l' name empty s) by done.
        apply shardGet_empty.
  - destruct (put fuel (S depth) l sub) as [s'|] eqn:Hs'; [|done].
    injection He as <-. simpl. by eapply IH.
  - injection He as <-. simpl. by rewrite decide_False by congruence.
Qed.

Lemma find_snoc {A} (P : A -> bool) (l : list A) x :
  find P (l ++ [x]) =
  match find P l with
  | Some y => Some y
  | None => if P x then Some x else None
  end.
Proof. induction l as [|a l IH]; simpl; [done|]. by destruct (P a). Qed.

Lemma find_name_elem name (links : list PBLink) l :
  find (fun l => bool_decide (Name l = name)) links = Some l ->
  l ∈ links /\ Name l = name.
Proof.
  induction links as [|x links IH]; simpl; [done|].
  destruct (bool_decide (Name x = name)) eqn:Hx.
  - intros [= <-]. split; [left|by apply bool_decide_eq_true in Hx].
  - intros Hf. destruct (IH Hf). split; [by right|done].
Qed.

(** A shard built from links of pairwise distinct names answers
    [getLink] as the flat link table does. *)
Lemma shardGet_putAll fuel : forall (links : list PBLink) (root : ShardNode) name,
  NoDup (Name <$> links) ->
  putAll fuel (Some empty) links = Some root ->
  get fuel 0 name root = find (fun l => bool_decide (Name l = name)) links.
Proof.
  induction links as [|x links IH] using rev_ind; intros root name Hnd Hroot.
  - injection Hroot as <-. apply shardGet_empty.
  - rewrite putAll_app in Hroot. simpl in Hroot.
    destruct (putAll fuel (Some empty) links) as [r0|] eqn:Hr0; [|done].
    simpl in Hroot.
    rewrite fmap_app in Hnd. apply list.NoDup_app in Hnd as (Hnd & Hfresh & _).
    rewrite find_snoc. destruct (decide (name = Name x)) as [->|Hne].
    + rewrite (shardGet_put_same _ _ _ _ _ Hroot).
      destruct (find _ links) as [y|] eqn:Hy.
      * apply find_name_elem in Hy as [Hin Hn]. exfalso.
        apply (Hfresh (Name x)); [|left].
        rewrite <- Hn. by apply list_elem_of_fmap_2.
      * by rewrite bool_decide_eq_true_2.
    + rewrite (shardGet_put_other _ _ _ _ _ _ Hne Hroot), (IH r0 name Hnd eq_refl).
      destruct (find _ links); [done|].
      by rewrite bool_decide_eq_false_2 by congruence.
Qed.

(** *** Insertion succeeds while the hash tells the names apart *)

Lemma bucketIndex_lt name depth : idx name depth < fanOut fanOutBits.
Proof.
  unfold bucketIndex, fanOut. rewrite N.land_ones.
  pose proof (N.mod_lt (N.shiftr (hashFn name) (fanOutBits * N.of_nat depth))
                       (2 ^ fanOutBits) (N.pow_nonzero 2 fanOutBits ltac:(done))).
  lia.
Qed.

Lemma shardForall_impl (P Q : PBLink -> Prop) fuel : forall (node : ShardNode),
  (forall l, P l -> Q l) -> shardForall P fuel node -> shardForall Q fuel node.
Proof.
  induction fuel as [|fuel IH]; intros node HPQ HP; [done|].
  intros i e He. specialize (HP i e He). destruct e; eauto.
Qed.

Lemma shardForall_and (P Q : PBLink -> Prop) fuel : forall (node : ShardNode),
  shardForall P fuel node -> shardForall Q fuel node ->
  shardForall (fun l => P l /\ Q l) fuel node.
Proof.
  induction fuel as [|fuel IH]; intros node HP HQ; [done|].
  intros i e He. specialize (HP i e He). specialize (HQ i e He).
  destruct e; eauto.
Qed.

Lemma emptyShard_lookup i e : empty !! i = Some (Some e) -> False.
Proof.
  unfold emptyShard. intros Hl. by apply lookup_replicate in Hl as [? _].
Qed.

Lemma shardForall_empty P fuel : shardForall P fuel empty.
Proof.
  destruct fuel; [done|]. intros i e He. by apply emptyShard_lookup in He.
Qed.

Lemma placed_empty fuel depth : 0 < fuel -> placed fanOutBits hashFn fuel depth empty.
Proof.
  destruct fuel; [lia|]. intros _. split.
  - unfold emptyShard. apply length_replicate.
  - intros i e He. by apply emptyShard_lookup in He.
Qed.

(** What the bucket of an updated row holds. *)
Lemma lookup_insert_entry (node : ShardNode) i j x e :
  <[i := Some x]> node !! j = Some (Some e) ->
  (j = i /\ e = x) \/ node !! j = Some (Some e).
Proof.
  destruct (decide (i = j)) as [->|Hne].
  - destruct (decide (j < length node)).
    + rewrite list_lookup_insert_eq by done. intros [= ->]. by left.
    + rewrite list_insert_ge by lia. by right.
  - rewrite list_lookup_insert_ne by done. by right.
Qed.

End EngineFacts.

Section TotalityFacts.

Variable fanOutBits : N.
Variable hashFn : string -> N.
Variable maxDepth : nat.

Local Abbreviation put := (shardPut fanOutBits hashFn).
Local Abbreviation idx := (bucketIndex fanOutBits hashFn).
Local Abbreviation empty := (emptyShard fanOutBits).
Local Abbreviation placed' := (placed fanOutBits hashFn).
Local Abbreviation separated' := (separated fanOutBits hashFn maxDepth).

Local Arguments shardPut : simpl never.
Local Arguments placed : simpl never.
Local Arguments shardForall : simpl never.

(** A link goes into a well-shaped shard that holds, besides links
    of its own name, only links a hash segment tells apart from it;
    the shard stays well shaped, and what held of all its links and
    holds of the new one holds of all links after. *)
Lemma shardPut_total fuel : forall depth l (node : ShardNode),
  fuel + depth = maxDepth ->
  placed' fuel depth node ->
  shardForall (fun l' => forall d, d < depth ->
                                   idx (Name l') d = idx (Name l) d) fuel node ->
  shardForall (fun l' => Name l' <> Name l ->
                         separated' (Name l') (Name l)) fuel node ->
  exists node',
    put fuel depth l node = Some node' /\
    placed' fuel depth node' /\
    (forall P : PBLink -> Prop,
        P l -> shardForall P fuel node -> shardForall P fuel node').
Proof.
  induction fuel as [|fuel IH]; intros depth l node Hfuel Hpl Hpre Hsep; [done|].
  destruct Hpl as [Hlen Hpl].
  pose proof (bucketIndex_lt fanOutBits hashFn (Name l) depth) as Hlt.
  rewrite <- Hlen in Hlt.
  destruct (lookup_lt_is_Some_2 _ _ Hlt) as [slot Hslot].
  rewrite shardPut_slot, Hslot. simpl.
  set (i := idx (Name l) depth) in *.
  assert (Hdone : forall e,
             match e with
             | EntryLink l0 => idx (Name l0) depth = i
             | EntryShard sub =>
               placed' fuel (S depth) sub /\
               shardForall (fun l0 => idx (Name l0) depth = i) fuel sub
             end ->
             (forall P : PBLink -> Prop,
                 P l -> shardForall P (S fuel) node ->
                 match e with
                 | EntryLink l0 => P l0
                 | EntryShard sub => shardForall P fuel sub
                 end) ->
             exists node',
               Some (<[i := Some e]> node) = Some node' /\
               placed' (S fuel) depth node' /\
               (forall P : PBLink -> Prop,
                   P l -> shardForall P (S fuel) node ->
                   shardForall P (S fuel) node')).
  { intros e Hshape Hall. eexists. split; [done|]. split.
    - split; [by rewrite length_insert|].
      intros j e' He'. apply lookup_insert_entry in He' as [[-> ->]|He']; [done|].
      exact (Hpl _ _ He').
    - intros P HP Hnode j e' He'.
      apply lookup_insert_entry in He' as [[-> ->]|He']; [by apply Hall|].
      exact (Hnode _ _ He'). }
  unfold putSlot. destruct slot as [[l'|sub]|].
  - (* the bucket holds a link *)
    destruct (decide (Name l' = Name l)) as [Heq|Hne].
    { apply (Hdone (EntryLink l)); [done|]. by intros P HP _. }
    pose proof (Hpl _ _ Hslot) as Hidx. simpl in Hidx.
    pose proof (Hpre _ _ Hslot) as Hshare. simpl in Hshare.
    destruct (Hsep _ _ Hslot Hne) as (d & Hd & Hdiff).
    assert (depth < d).
    { destruct (decide (d < depth)) as [Hdl|Hdl]; [by rewrite Hshare in Hdiff|].
      destruct (decide (d = depth)) as [->|]; [done|lia]. }
    destruct (IH (S depth) l' empty) as (s & Hs & Hps & Halls);
      [lia|apply placed_empty; lia|apply shardForall_empty..|].
    destruct (IH (S depth) l s) as (s' & Hs' & Hps' & Halls'); [lia|done| | |].
    + apply Halls; [|apply shardForall_empty].
      intros d' Hd'. destruct (decide (d' = depth)) as [->|]; [done|].
      apply Hshare. lia.
    + apply Halls; [|apply shardForall_empty]. intros _. by exists d.
    + rewrite Hs. simpl. rewrite Hs'. simpl.
      apply (Hdone (EntryShard s')).
      * split; [done|]. apply Halls'; [done|].
        apply Halls; [done|apply shardForall_empty].
      * intros P HP Hnode. apply Halls'; [done|].
        apply Halls; [|apply shardForall_empty]. exact (Hnode _ _ Hslot).
  - (* the bucket holds a sub-shard *)
    destruct (Hpl _ _ Hslot) as [Hpsub Hisub].
    destruct (IH (S depth) l sub) as (s' & Hs' & Hps' & Halls'); [lia|done| | |].
    + eapply shardForall_impl;
        [|exact (shardForall_and _ _ _ _ (Hpre _ _ Hslot) Hisub)].
      intros l0 [Hshare Hi0] d' Hd'. simpl in *.
      destruct (decide (d' = depth)) as [->|]; [done|]. apply Hshare. lia.
    + exact (Hsep _ _ Hslot).
    + rewrite Hs'. simpl.
      apply (Hdone (EntryShard s')).
      * split; [done|]. by apply Halls'.
      * intros P HP Hnode. apply Halls'; [done|]. exact (Hnode _ _ Hslot).
  - (* the bucket is free *)
    apply (Hdone (EntryLink l)); [done|]. by intros P HP _.
Qed.

(** A row of links goes into a well-shaped shard root when a hash
    segment tells apart every two links of different names, among the
    row and the links already there. *)
Lemma putAll_total : forall (links : list PBLink) (node : ShardNode)
                            (Held : PBLink -> Prop),
  placed' maxDepth 0 node ->
  shardForall Held maxDepth node ->
  (forall a b, Held a \/ a ∈ links -> b ∈ links -> Name a <> Name b ->
               separated' (Name a) (Name b)) ->
  is_Some (foldl (fun acc l => acc ≫= put maxDepth 0 l) (Some node) links).
Proof.
  induction links as [|x links IH]; intros node Held Hpl Hheld Hsep; [by eexists|].
  destruct (shardPut_total maxDepth 0 x node) as (node' & Hput & Hpl' & Hall).
  - lia.
  - done.
  - eapply shardForall_impl; [|exact Hheld]. intros l _ d Hd. lia.
  - eapply shardForall_impl; [|exact Hheld]. intros l Hl Hne.
    apply Hsep; [by left|left|done].
  - simpl. rewrite Hput.
    apply (IH node' (fun l => Held l \/ l = x)); [done| |].
    + apply Hall; [by right|].
      eapply shardForall_impl; [|exact Hheld]. intros l Hl. by left.
    + intros a b [[Ha| ->]|Ha] Hb Hne; apply Hsep; auto; try (by right);
        right; by (left || right).
Qed.

(** The conversion succeeds on links that the hash tells apart. *)
Lemma convertToShardedDirectory_total (links : list PBLink) :
  0 < maxDepth ->
  (forall a b, a ∈ links -> b ∈ links -> Name a <> Name b ->
               separated' (Name a) (Name b)) ->
  is_Some (convertToShardedDirectory fanOutBits hashFn maxDepth links).
Proof.
  intros Hdepth Hsep. unfold convertToShardedDirectory.
  apply (putAll_total links empty (fun _ => False)).
  - by apply placed_empty.
  - apply shardForall_empty.
  - intros a b [[]|Ha] Hb. by apply Hsep.
Qed.

End TotalityFacts.

Section EngineFacts2.

Variable fanOutBits : N.
Variable hashFn : string -> N.

Local Abbreviation idx := (bucketIndex fanOutBits hashFn).

(** A link that [shardGet] finds can be removed. *)
Lemma shardRemove_present fuel : forall depth name (node : ShardNode),
  is_Some (shardGet fanOutBits hashFn fuel depth name node) ->
  is_Some (shardRemove fanOutBits hashFn fuel depth name node).
Proof.
  induction fuel as [|fuel IH]; intros depth name node [l Hl]; [done|].
  rewrite shardGet_slot in Hl. unfold getSlot in Hl. simpl in *.
  destruct (node !! idx name depth) as [[[l'|sub]|]|]; try done.
  - case_decide; [by eexists|done].
  - destruct (IH (S depth) name sub) as [sub' ->]; [by eexists|].
    by eexists.
Qed.

End EngineFacts2.

(** * Properties of the link table and of the commands *)

Section CommandFacts.

Variable fanOutBits : N.
Variable hashFn : string -> N.
Variable maxDepth : nat.
Variable serializedSize : PBNode -> N.
Variable digest : PBNode -> positive.
Variable cumulativeSize : Block -> N.
Variable SHARD_SPLIT_THRESHOLD_BYTES : N.
Variable raceLeftFirst : bool.

Local Abbreviation addLink' :=
  (addLink fanOutBits hashFn maxDepth serializedSize digest).
Local Abbreviation removeLink' :=
  (removeLink fanOutBits hashFn maxDepth digest).
Local Abbreviation getLink' := (getLink fanOutBits hashFn maxDepth).
Local Abbreviation cp' :=
  (cp fanOutBits hashFn maxDepth serializedSize digest cumulativeSize
      SHARD_SPLIT_THRESHOLD_BYTES raceLeftFirst).
Local Abbreviation rm' :=
  (rm fanOutBits hashFn maxDepth digest SHARD_SPLIT_THRESHOLD_BYTES).

(** *** Names *)

(** [includesSlash] is the test for the character [/] in the name. *)
Lemma includesSlash_spec name :
  includesSlash name = true <->
  In (Ascii.ascii_of_nat 47) (String.list_ascii_of_string name).
Proof.
  induction name as [|c name IH]; simpl; [by split|].
  destruct (Ascii.eqb_spec c (Ascii.ascii_of_nat 47)) as [->|Hc].
  - split; [by left|done].
  - rewrite IH. split; [by right|]. by intros [?|?].
Qed.

(** *** Option objects *)

Lemma lookup_mergeOptions (d o : gmap string JSValue) k :
  mergeOptions d o !! k =
  match o !! k with
  | Some v => if isDefined v then Some v else d !! k
  | None => d !! k
  end.
Proof.
  unfold mergeOptions. rewrite lookup_union, map_lookup_filter.
  destruct (o !! k) as [v|]; simpl.
  - destruct (isDefined v) eqn:Hv.
    + rewrite option_guard_True by done. by destruct (d !! k).
    + rewrite option_guard_False by (simpl; congruence). by destruct (d !! k).
  - by destruct (d !! k).
Qed.

Lemma PartialCpOptions_lookup (o : gmap string JSValue) k v :
  PartialCpOptions o -> o !! k = Some v -> isCpOption k v = true.
Proof. intros Ho Hk. exact (Ho k v Hk). Qed.

(** A well-typed [cp] caller sets neither [allowOverwriting] nor
    [cidVersion]. *)
Lemma PartialCpOptions_fresh (o : gmap string JSValue) k :
  PartialCpOptions o ->
  k = "allowOverwriting" \/ k = "cidVersion" ->
  mergeOptions (cpDefaultOptions SHARD_SPLIT_THRESHOLD_BYTES) o !! k = None.
Proof.
  intros Ho Hk. rewrite lookup_mergeOptions.
  assert (Hd : cpDefaultOptions SHARD_SPLIT_THRESHOLD_BYTES !! k = None).
  { unfold cpDefaultOptions. by destruct Hk as [-> | ->]. }
  destruct (o !! k) as [v|] eqn:Hv; [|done].
  apply (PartialCpOptions_lookup _ _ _ Ho) in Hv.
  by destruct Hk as [-> | ->].
Qed.

Lemma cpAddLinkOptions_allowOverwriting (o : gmap string JSValue) target :
  PartialCpOptions o ->
  prop (cpAddLinkOptions target
          (mergeOptions (cpDefaultOptions SHARD_SPLIT_THRESHOLD_BYTES) o))
       "allowOverwriting" =
  prop (mergeOptions (cpDefaultOptions SHARD_SPLIT_THRESHOLD_BYTES) o) "force".
Proof.
  intros Ho. unfold prop at 1, cpAddLinkOptions.
  rewrite lookup_union, (PartialCpOptions_fresh o) by auto.
  by rewrite lookup_insert_eq.
Qed.

Lemma cpAddLinkOptions_cidVersion (o : gmap string JSValue) target :
  PartialCpOptions o ->
  prop (cpAddLinkOptions target
          (mergeOptions (cpDefaultOptions SHARD_SPLIT_THRESHOLD_BYTES) o))
       "cidVersion" = versionNumber (version target).
Proof.
  intros Ho. unfold prop, cpAddLinkOptions.
  rewrite lookup_union, (PartialCpOptions_fresh o) by auto.
  rewrite lookup_insert_ne by done. by rewrite lookup_insert_eq.
Qed.

Lemma cidVersionOf_versionNumber v : cidVersionOf (versionNumber v) = v.
Proof. by destruct v. Qed.

(** Why the typing of the options matters in [cp]: the options are
    spread after [cidVersion], so an object that did carry a
    [cidVersion] property would replace the version of the target. *)
Example cp_untyped_cidVersion target :
  prop (cpAddLinkOptions target
          (mergeOptions (cpDefaultOptions SHARD_SPLIT_THRESHOLD_BYTES)
                        (<["cidVersion" := VNumber 0]> ∅)))
       "cidVersion" = VNumber 0.
Proof.
  unfold prop, cpAddLinkOptions.
  rewrite lookup_union, lookup_mergeOptions, lookup_insert_eq. done.
Qed.

(** [force] left out, [undefined] or [false]: the default holds. *)
Lemma cp_force_default (o : gmap string JSValue) :
  o !! "force" = None \/ o !! "force" = Some VUndefined
    \/ o !! "force" = Some (VBool false) ->
  prop (mergeOptions (cpDefaultOptions SHARD_SPLIT_THRESHOLD_BYTES) o) "force"
  = VBool false.
Proof.
  intros Hf. unfold prop. rewrite lookup_mergeOptions.
  by destruct Hf as [-> | [-> | ->]].
Qed.

(** *** Reads of the block store *)

Lemma cidToDirectory_run c w :
  cidToDirectory c w =
  (match blocks w !! c with
   | Some (DirectoryBlock n) => Ok (mkDirectory c n)
   | Some _ => Err (NotADirectoryError c)
   | None => Err NotFoundError
   end, afterGet c w).
Proof.
  unfold cidToDirectory, exporter, bind, blockGet. simpl.
  by destruct (blocks w !! c) as [[]|].
Qed.

Lemma cidToPBLink_run c name w :
  cidToPBLink cumulativeSize c name w =
  (match blocks w !! c with
   | Some b => Ok (mkLink name (cumulativeSize b) c)
   | None => Err NotFoundError
   end, afterGet c w).
Proof.
  unfold cidToPBLink, exporter, bind, blockGet. simpl.
  by destruct (blocks w !! c).
Qed.

Lemma find_hasLink name links :
  is_Some (find (fun l => bool_decide (Name l = name)) links) ->
  hasLink name links = true.
Proof.
  induction links as [|l links IH]; simpl; [by intros [? ?]|].
  destruct (bool_decide (Name l = name)); [done|]. simpl. auto.
Qed.

(** Without [allowOverwriting] a name that is there is refused. *)
Lemma addLinkNode_exists n child threshold :
  is_Some (getLink' n (Name child)) ->
  addLinkNode fanOutBits hashFn maxDepth serializedSize n child false threshold
  = Err AlreadyExistsError.
Proof.
  destruct n as [links|root]; simpl; intros Hget.
  - by rewrite find_hasLink.
  - by rewrite bool_decide_eq_true_2.
Qed.

(** *** Inserting into a flat link table *)

Lemma hasLink_elem name links :
  hasLink name links = true <-> exists l, l ∈ links /\ Name l = name.
Proof.
  unfold hasLink. rewrite existsb_exists. split.
  - intros (l & Hin & Hl). exists l. split; [by apply list_elem_of_In|].
    by apply bool_decide_eq_true in Hl.
  - intros (l & Hin & Hl). exists l. split; [by apply list_elem_of_In|].
    by apply bool_decide_eq_true.
Qed.

Lemma replaceLink_elem child links l :
  l ∈ replaceLink child links ->
  l = child \/ (l ∈ links /\ Name l <> Name child).
Proof.
  unfold replaceLink. rewrite list_elem_of_fmap. intros (x & -> & Hx).
  case_decide; auto.
Qed.

Lemma insertLink_elem child links : child ∈ insertLink child links.
Proof.
  unfold insertLink. destruct (hasLink (Name child) links) eqn:Hhas.
  - apply hasLink_elem in Hhas as (l & Hin & Hl).
    unfold replaceLink. apply list_elem_of_fmap. exists l.
    by rewrite decide_True.
  - apply elem_of_app. right. left.
Qed.

Lemma insertLink_same_name child links l :
  l ∈ insertLink child links -> Name l = Name child -> l = child.
Proof.
  unfold insertLink. destruct (hasLink (Name child) links) eqn:Hhas.
  - intros Hin Hn. by apply replaceLink_elem in Hin as [->|[_ ?]].
  - rewrite elem_of_app, list_elem_of_singleton. intros [Hin| ->] Hn; [|done].
    assert (hasLink (Name child) links = true) by (apply hasLink_elem; eauto).
    congruence.
Qed.

Lemma replaceLink_idem child links :
  replaceLink child (replaceLink child links) = replaceLink child links.
Proof.
  unfold replaceLink. rewrite <- list_fmap_compose. apply list_fmap_ext.
  intros i l _. simpl.
  destruct (decide (Name l = Name child)); [by rewrite decide_True|by rewrite decide_False].
Qed.

Lemma replaceLink_absent child links :
  hasLink (Name child) links = false -> replaceLink child links = links.
Proof.
  intros Hhas. unfold replaceLink. rewrite <- (list_fmap_id links) at 2.
  apply list_fmap_ext. intros i l Hl. simpl. case_decide; [|done].
  assert (hasLink (Name child) links = true); [|congruence].
  apply hasLink_elem. exists l. split; [|done]. by eapply list_elem_of_lookup_2.
Qed.

Lemma insertLink_idem child links :
  insertLink child (insertLink child links) = insertLink child links.
Proof.
  assert (Hhas : hasLink (Name child) (insertLink child links) = true).
  { apply hasLink_elem. exists child. split; [apply insertLink_elem|done]. }
  unfold insertLink at 1. rewrite Hhas.
  unfold insertLink. destruct (hasLink (Name child) links) eqn:Hl.
  - apply replaceLink_idem.
  - unfold replaceLink. rewrite fmap_app. simpl. rewrite decide_True by done.
    f_equal. by apply replaceLink_absent.
Qed.

Lemma find_absent name links :
  hasLink name links = false ->
  find (fun l => bool_decide (Name l = name)) links = None.
Proof.
  intros Hhas. destruct (find _ links) as [l|] eqn:Hf; [|done].
  apply find_name_elem in Hf as [Hin Hn].
  assert (hasLink name links = true) by (apply hasLink_elem; eauto).
  congruence.
Qed.

Lemma find_replaceLink_same child links :
  hasLink (Name child) links = true ->
  find (fun l => bool_decide (Name l = Name child)) (replaceLink child links)
  = Some child.
Proof.
  induction links as [|a links IH]; simpl; [done|].
  destruct (decide (Name a = Name child)) as [Ha|Ha].
  - intros _. by rewrite bool_decide_eq_true_2.
  - rewrite !bool_decide_eq_false_2 by done. simpl. apply IH.
Qed.

Lemma find_replaceLink_other child links name :
  name <> Name child ->
  find (fun l => bool_decide (Name l = name)) (replaceLink child links)
  = find (fun l => bool_decide (Name l = name)) links.
Proof.
  intros Hne. induction links as [|a links IH]; simpl; [done|].
  destruct (decide (Name a = Name child)) as [Ha|Ha].
  - rewrite !bool_decide_eq_false_2 by congruence. apply IH.
  - by rewrite IH.
Qed.

Lemma find_insertLink_same child links :
  find (fun l => bool_decide (Name l = Name child)) (insertLink child links)
  = Some child.
Proof.
  unfold insertLink. destruct (hasLink (Name child) links) eqn:Hhas.
  - by apply find_replaceLink_same.
  - rewrite find_snoc, find_absent by done. by rewrite bool_decide_eq_true_2.
Qed.

Lemma find_insertLink_other child links name :
  name <> Name child ->
  find (fun l => bool_decide (Name l = name)) (insertLink child links)
  = find (fun l => bool_decide (Name l = name)) links.
Proof.
  intros Hne. unfold insertLink. destruct (hasLink (Name child) links) eqn:Hhas.
  - by apply find_replaceLink_other.
  - rewrite find_snoc. destruct (find _ links); [done|].
    by rewrite bool_decide_eq_false_2 by congruence.
Qed.

Lemma replaceLink_names child links :
  Name <$> replaceLink child links = Name <$> links.
Proof.
  unfold replaceLink. rewrite <- list_fmap_compose. apply list_fmap_ext.
  intros i l _. simpl. by destruct (decide (Name l = Name child)).
Qed.

Lemma insertLink_distinct child links :
  NoDup (Name <$> links) -> NoDup (Name <$> insertLink child links).
Proof.
  intros Hnd. unfold insertLink. destruct (hasLink (Name child) links) eqn:Hhas.
  - by rewrite replaceLink_names.
  - rewrite fmap_app. apply list.NoDup_app. split; [done|]. split.
    + intros name Hin. simpl. rewrite list_elem_of_singleton. intros ->.
      apply list_elem_of_fmap in Hin as (l & Hl & Hin).
      assert (hasLink (Name child) links = true) by (apply hasLink_elem; eauto).
      congruence.
    + apply NoDup_singleton.
Qed.

(** After [addLink] the link is found under its name. *)
Lemma addLinkNode_get_same n child allow threshold n' :
  distinctNames n ->
  addLinkNode fanOutBits hashFn maxDepth serializedSize n child allow threshold = Ok n' ->
  getLink' n' (Name child) = Some child.
Proof.
  destruct n as [links|root]; simpl; intros Hnd.
  - destruct (_ && _); [done|].
    destruct (isOverShardThreshold _ _ _).
    + destruct (convertToShardedDirectory _ _ _ _) as [root|] eqn:Hconv; [|done].
      intros [= <-]. simpl.
      rewrite (shardGet_putAll _ _ _ _ _ _ (insertLink_distinct child links Hnd) Hconv).
      apply find_insertLink_same.
    + intros [= <-]. simpl. apply find_insertLink_same.
  - destruct (_ && _); [done|].
    destruct (shardPut _ _ _ _ _ _) as [root'|] eqn:Hput; [|done].
    intros [= <-]. simpl. by eapply shardGet_put_same.
Qed.

(** After [addLink] the links of other names are found as before. *)
Lemma addLinkNode_get_other n child allow threshold n' name :
  distinctNames n ->
  name <> Name child ->
  addLinkNode fanOutBits hashFn maxDepth serializedSize n child allow threshold = Ok n' ->
  getLink' n' name = getLink' n name.
Proof.
  destruct n as [links|root]; simpl; intros Hnd Hne.
  - destruct (_ && _); [done|].
    destruct (isOverShardThreshold _ _ _).
    + destruct (convertToShardedDirectory _ _ _ _) as [root|] eqn:Hconv; [|done].
      intros [= <-]. simpl.
      rewrite (shardGet_putAll _ _ _ _ _ _ (insertLink_distinct child links Hnd) Hconv).
      by apply find_insertLink_other.
    + intros [= <-]. simpl. by apply find_insertLink_other.
  - destruct (_ && _); [done|].
    destruct (shardPut _ _ _ _ _ _) as [root'|] eqn:Hput; [|done].
    intros [= <-]. simpl. by eapply shardGet_put_other.
Qed.

(** With [allowOverwriting], adding a link to the node that already
    results from adding it gives that node again. *)
Lemma addLinkNode_idem n child threshold n1 :
  addLinkNode fanOutBits hashFn maxDepth serializedSize n child true threshold = Ok n1 ->
  addLinkNode fanOutBits hashFn maxDepth serializedSize n1 child true threshold = Ok n1.
Proof.
  destruct n as [links|root]; simpl; rewrite andb_false_r.
  - destruct (isOverShardThreshold _ _ _) eqn:Hover.
    + destruct (convertToShardedDirectory _ _ _ _) as [root|] eqn:Hconv; [|done].
      intros [= <-]. simpl. rewrite andb_false_r.
      erewrite putAll_absorb_elem; [done|apply insertLink_elem| |exact Hconv].
      apply insertLink_same_name.
    + intros [= <-]. simpl. rewrite andb_false_r.
      by rewrite insertLink_idem, Hover.
  - destruct (shardPut _ _ _ _ _ _) as [root'|] eqn:Hput; [|done].
    intros [= <-]. simpl. rewrite andb_false_r.
    by rewrite (shardPut_idem _ _ _ _ _ _ _ Hput).
Qed.

(** C3: [addLink] on a flat directory returns a shard tree exactly
    when the serialized size of the candidate (the flat node with the
    link inserted) is strictly over [shardSplitThresholdBytes].  A
    link that is accepted (its name new, or [allowOverwriting]) gives
    a result on both sides of the boundary: at the threshold and below
    it the flat candidate, and one byte over it the shard tree of the
    conversion, which has a result when a hash segment tells apart
    every two names of the candidate. *)
Theorem addLink_threshold_boundary parent child options links t w :
  node parent = FlatNode links ->
  prop options "shardSplitThresholdBytes" = VNumber t ->
  (forall r w', addLink' parent child options w = (Ok r, w') ->
     (isSharded (node r) = true <->
      (t < serializedSize (FlatNode (insertLink child links)))%N)) /\
  (hasLink (Name child) links = false \/
   truthy (prop options "allowOverwriting") = true ->
   ((serializedSize (FlatNode (insertLink child links)) <= t)%N ->
    exists r w', addLink' parent child options w = (Ok r, w') /\
                 node r = FlatNode (insertLink child links)) /\
   ((t < serializedSize (FlatNode (insertLink child links)))%N ->
    0 < maxDepth ->
    convertible fanOutBits hashFn maxDepth (FlatNode (insertLink child links)) ->
    exists r w' root,
      addLink' parent child options w = (Ok r, w') /\
      convertToShardedDirectory fanOutBits hashFn maxDepth (insertLink child links)
        = Some root /\
      node r = ShardedNode root)).
Proof.
  intros Hflat Ht. unfold addLink, addLinkNode. rewrite Hflat, Ht. split.
  - intros r w'. destruct (hasLink _ _ && negb _); [done|]. simpl.
    destruct (N.ltb_spec t (serializedSize (FlatNode (insertLink child links))))
      as [Hlt|Hge].
    + destruct (convertToShardedDirectory _ _ _ _) as [root|]; [|done].
      intros [= <- _]. simpl. by split.
    + intros [= <- _]. simpl. split; [done|lia].
  - intros Haccepted.
    assert (hasLink (Name child) links
            && negb (truthy (prop options "allowOverwriting")) = false) as ->.
    { destruct Haccepted as [-> | ->]; [done|by rewrite andb_false_r]. }
    simpl. split.
    + intros Hle. apply N.ltb_ge in Hle. rewrite Hle. by eexists _, _.
    + intros Hlt Hdepth Hsep. apply N.ltb_lt in Hlt. rewrite Hlt.
      destruct (convertToShardedDirectory_total fanOutBits hashFn maxDepth
                  (insertLink child links) Hdepth Hsep) as [root Hroot].
      rewrite Hroot. by eexists _, _, root.
Qed.

(** C5: [removeLink] on a sharded directory that holds the name
    succeeds and returns a directory that is still sharded, whatever
    its size has become; so does [rm] on the CID of such a directory
    (the block it writes is a shard root). *)
Theorem removeLink_stays_sharded parent name options root w :
  node parent = ShardedNode root ->
  is_Some (getLink' (node parent) name) ->
  (exists r w', removeLink' parent name options w = (Ok r, w') /\
                isSharded (node r) = true) /\
  (includesSlash name = false ->
   blocks w !! cid parent = Some (DirectoryBlock (node parent)) ->
   exists c w' n, rm' (cid parent) name options w = (Ok c, w') /\
                  blocks w' !! c = Some (DirectoryBlock n) /\
                  isSharded n = true).
Proof.
  intros Hsh. rewrite Hsh. simpl. intros Hget.
  apply shardRemove_present in Hget as [root' Hrm]. split.
  - unfold removeLink, removeLinkNode. rewrite Hsh, Hrm.
    by eexists _, _.
  - intros Hname Hblock. unfold rm. rewrite Hname.
    unfold bind at 1. rewrite cidToDirectory_run, Hblock.
    unfold bind, removeLink, removeLinkNode. simpl. rewrite Hrm. simpl.
    eexists _, _, _. split; [done|]. simpl. split; [apply lookup_insert_eq|done].
Qed.

(** C1: [cp] of a resolvable source under a name the target
    directory already holds, with [force] left at its default (or
    given as false), fails with [AlreadyExistsError]: no CID is
    returned and the store holds the blocks it held.  ([addLink] is
    called with [allowOverwriting] equal to [opts.force],
    [cpAddLinkOptions_allowOverwriting].) *)
Theorem cp_existing_name_refused source target name options w bsrc D :
  PartialCpOptions options ->
  (options !! "force" = None \/ options !! "force" = Some VUndefined
     \/ options !! "force" = Some (VBool false)) ->
  includesSlash name = false ->
  blocks w !! source = Some bsrc ->
  blocks w !! target = Some (DirectoryBlock D) ->
  is_Some (getLink' D name) ->
  exists w', cp' source target name options w = (Err AlreadyExistsError, w') /\
             blocks w' = blocks w.
Proof.
  intros Ho Hforce Hname Hsrc Htgt Hget.
  unfold cp. rewrite Hname.
  unfold bind at 1, promiseAll2.
  rewrite cidToDirectory_run, Htgt, cidToPBLink_run. simpl. rewrite Hsrc.
  unfold bind, addLink. simpl.
  rewrite (cpAddLinkOptions_allowOverwriting _ _ Ho), (cp_force_default _ Hforce).
  simpl. rewrite addLinkNode_exists by done.
  by eexists.
Qed.

(** C10: on a name with a slash [cp] and [rm] throw before the
    target or the source is resolved: the world they leave is the one
    they found, no block read and none written. *)
Theorem cp_rm_slash_before_resolution source target name cpOptions rmOptions w :
  includesSlash name = true ->
  cp' source target name cpOptions w
    = (Err (InvalidParametersError "Name must not have slashes"), w) /\
  rm' target name rmOptions w
    = (Err (InvalidParametersError "Name must not have slashes"), w).
Proof. intros Hname. unfold cp, rm. by rewrite Hname. Qed.

(** C4 (amended): on a name with a slash [cp] and [rm] fail with
    [InvalidParametersError] and leave the blocks of the store as
    they were. *)
Theorem cp_rm_slash_invalid_parameters source target name cpOptions rmOptions w :
  includesSlash name = true ->
  (exists e w', cp' source target name cpOptions w = (Err e, w') /\
                errorName e = "InvalidParametersError" /\
                blocks w' = blocks w) /\
  (exists e w', rm' target name rmOptions w = (Err e, w') /\
                errorName e = "InvalidParametersError" /\
                blocks w' = blocks w).
Proof.
  intros Hname. unfold cp, rm. rewrite Hname.
  split; by eexists _, _.
Qed.

(** C7 (amended): when the name has no slash and the target
    resolves to an entry that is not a directory, [rm] fails with
    [NotADirectoryError] and [cp] fails, returning no CID; the error
    of [cp] is [NotADirectoryError] when the source resolves or when
    the rejection of [cidToDirectory] settles first. *)
Theorem cp_rm_not_a_directory source target name cpOptions rmOptions w b :
  includesSlash name = false ->
  blocks w !! target = Some b ->
  type b <> directory ->
  (exists w', rm' target name rmOptions w = (Err (NotADirectoryError target), w')) /\
  (exists e w', cp' source target name cpOptions w = (Err e, w') /\
     (is_Some (blocks w !! source) \/ raceLeftFirst = true ->
      e = NotADirectoryError target)).
Proof.
  intros Hname Htgt Hty. unfold cp, rm. rewrite Hname. split.
  - unfold bind at 1. rewrite cidToDirectory_run, Htgt.
    destruct b; [done|by eexists..].
  - unfold bind at 1, promiseAll2.
    rewrite cidToDirectory_run, Htgt, cidToPBLink_run. simpl.
    destruct b; [done|..];
      (destruct (blocks w !! source) as [bs|] eqn:Hsrc;
       [ by eexists _, _
       | eexists _, _; split; [done|];
         intros [[? ?]| ->]; [done|reflexivity] ]).
Qed.

Lemma rmRemoveLinkOptions_cidVersion (o : gmap string JSValue) target :
  prop (rmRemoveLinkOptions target o) "cidVersion" = versionNumber (version target).
Proof. unfold prop, rmRemoveLinkOptions. by rewrite lookup_insert_eq. Qed.

(** The properties [cp] does not set itself are the merged options. *)
Lemma cpAddLinkOptions_other target (opts : gmap string JSValue) k :
  k <> "allowOverwriting" -> k <> "cidVersion" ->
  prop (cpAddLinkOptions target opts) k = prop opts k.
Proof.
  intros H1 H2. unfold prop, cpAddLinkOptions.
  rewrite lookup_union, !lookup_insert_ne, lookup_empty by done.
  by destruct (opts !! k).
Qed.

(** C9: a successful [cp] or [rm] writes one block, the directory
    node that [addLink] or [removeLink] made of the node of the target,
    under the CID it returns, and that CID is the CID of the written
    node at the version of the target CID; a caller passing
    [CpOptions] cannot change the version ([RmOptions] are spread
    before [cidVersion], so nothing in them can). *)
Theorem cp_rm_keep_cid_version source target name cpOptions rmOptions w :
  PartialCpOptions cpOptions ->
  (forall c w', cp' source target name cpOptions w = (Ok c, w') ->
     version c = version target /\
     exists D bsrc n,
       blocks w !! target = Some (DirectoryBlock D) /\
       blocks w !! source = Some bsrc /\
       addLinkNode fanOutBits hashFn maxDepth serializedSize D
         (mkLink name (cumulativeSize bsrc) source)
         (truthy (prop (mergeOptions (cpDefaultOptions SHARD_SPLIT_THRESHOLD_BYTES)
                                     cpOptions) "force"))
         (prop (mergeOptions (cpDefaultOptions SHARD_SPLIT_THRESHOLD_BYTES)
                             cpOptions) "shardSplitThresholdBytes")
       = Ok n /\
       c = cidOf digest (version target) n /\
       blocks w' !! c = Some (DirectoryBlock n) /\
       blocks w' = <[c := DirectoryBlock n]> (blocks w) /\
       accesses w' = BlockPut c :: BlockGet source :: BlockGet target :: accesses w) /\
  (forall c w', rm' target name rmOptions w = (Ok c, w') ->
     version c = version target /\
     exists D n,
       blocks w !! target = Some (DirectoryBlock D) /\
       removeLinkNode fanOutBits hashFn maxDepth D name = Ok n /\
       c = cidOf digest (version target) n /\
       blocks w' !! c = Some (DirectoryBlock n) /\
       blocks w' = <[c := DirectoryBlock n]> (blocks w) /\
       accesses w' = BlockPut c :: BlockGet target :: accesses w).
Proof.
  intros Ho. split; intros c w'.
  - unfold cp. destruct (includesSlash name); [done|].
    unfold bind at 1, promiseAll2.
    rewrite cidToDirectory_run, cidToPBLink_run. simpl.
    destruct (blocks w !! target) as [[D| | | |]|] eqn:Htgt,
             (blocks w !! source) as [bsrc|] eqn:Hsrc; try done.
    unfold bind, addLink. simpl.
    rewrite (cpAddLinkOptions_cidVersion _ _ Ho), cidVersionOf_versionNumber,
      (cpAddLinkOptions_allowOverwriting _ _ Ho),
      (cpAddLinkOptions_other _ _ "shardSplitThresholdBytes") by done.
    destruct (addLinkNode _ _ _ _ _ _ _ _) as [n|e] eqn:Hadd; [|done].
    simpl. intros [= <- <-]. simpl. split; [done|].
    exists D, bsrc, n. repeat split; try done. apply lookup_insert_eq.
  - unfold rm. destruct (includesSlash name); [done|].
    unfold bind at 1. rewrite cidToDirectory_run.
    destruct (blocks w !! target) as [[D| | | |]|] eqn:Htgt; try done.
    unfold bind, removeLink. simpl.
    rewrite rmRemoveLinkOptions_cidVersion, cidVersionOf_versionNumber.
    destruct (removeLinkNode _ _ _ _ _) as [n|e] eqn:Hrm; [|done].
    simpl. intros [= <- <-]. simpl. split; [done|].
    exists D, n. repeat split; try done. apply lookup_insert_eq.
Qed.

(** C6: with [allowOverwriting], adding the link [L] to the directory
    that [addLink] returned for [L] succeeds and returns the same node
    under the same CID. *)
Theorem addLink_overwrite_idempotent D L options w r1 w1 :
  truthy (prop options "allowOverwriting") = true ->
  addLink' D L options w = (Ok r1, w1) ->
  exists w2, addLink' r1 L options w1 = (Ok r1, w2) /\ blocks w2 = blocks w1.
Proof.
  intros Hallow. unfold addLink. rewrite Hallow.
  destruct (addLinkNode _ _ _ _ (node D) _ _ _) as [n1|e] eqn:Hadd; [|done].
  simpl. intros [= <- <-]. simpl.
  rewrite (addLinkNode_idem _ _ _ _ Hadd). simpl.
  eexists. split; [done|]. simpl.
  apply insert_id, lookup_insert_eq.
Qed.

(** C2: converting a flat directory to sharded form gives the same
    shard tree for every order of one set of links (names pairwise
    distinct), hence the same serialized bytes under every encoder and
    the same CID at every CID version; and the conversion does give a
    tree when a hash segment tells apart every two of the names. *)
Theorem convert_order_independent (links1 links2 : list PBLink) :
  NoDup (Name <$> links1) ->
  links1 ≡ₚ links2 ->
  convertToShardedDirectory fanOutBits hashFn maxDepth links1
    = convertToShardedDirectory fanOutBits hashFn maxDepth links2 /\
  (forall (Bytes : Type) (encode : ShardNode -> Bytes),
     encode <$> convertToShardedDirectory fanOutBits hashFn maxDepth links1
     = encode <$> convertToShardedDirectory fanOutBits hashFn maxDepth links2) /\
  (forall v,
     (fun root => cidOf digest v (ShardedNode root))
       <$> convertToShardedDirectory fanOutBits hashFn maxDepth links1
     = (fun root => cidOf digest v (ShardedNode root))
       <$> convertToShardedDirectory fanOutBits hashFn maxDepth links2) /\
  (0 < maxDepth ->
   (forall a b, a ∈ links1 -> b ∈ links1 -> Name a <> Name b ->
                separated fanOutBits hashFn maxDepth (Name a) (Name b)) ->
   is_Some (convertToShardedDirectory fanOutBits hashFn maxDepth links1)).
Proof.
  intros Hnd Hperm.
  assert (Heq : convertToShardedDirectory fanOutBits hashFn maxDepth links1
                = convertToShardedDirectory fanOutBits hashFn maxDepth links2).
  { unfold convertToShardedDirectory. by apply putAll_perm. }
  rewrite Heq. repeat split; try done.
  rewrite <- Heq. apply convertToShardedDirectory_total.
Qed.

(** *** Overwriting a link that is there *)

(** A link whose name the shard holds can be put: the link in its
    bucket is replaced, whatever the hash segments that are left. *)
Lemma shardPut_present fuel : forall depth (l : PBLink) (node : ShardNode),
  is_Some (shardGet fanOutBits hashFn fuel depth (Name l) node) ->
  is_Some (shardPut fanOutBits hashFn fuel depth l node).
Proof.
  induction fuel as [|fuel IH]; intros depth l node; simpl; [by intros [? ?]|].
  destruct (node !! bucketIndex fanOutBits hashFn (Name l) depth)
    as [[[l'|sub]|]|]; simpl; try (by intros [? ?]).
  - case_decide; [by eexists|by intros [? ?]].
  - intros Hsub. destruct (IH _ _ _ Hsub) as [sub' ->]. by eexists.
Qed.

(** The names of a flat node with a link of a name it holds replaced
    are its names. *)
Lemma insertLink_present_name child links a :
  hasLink (Name child) links = true ->
  a ∈ insertLink child links ->
  exists a0, a0 ∈ links /\ Name a0 = Name a.
Proof.
  intros Hhas. unfold insertLink. rewrite Hhas. intros Ha.
  apply replaceLink_elem in Ha as [-> | [Ha _]]; [|by exists a].
  by apply hasLink_elem in Hhas.
Qed.

(** With [allowOverwriting], a link under a name the directory holds
    is written over the old one: [addLink] has a result, also when the
    directory has to be converted. *)
Lemma addLinkNode_overwrite_total n child threshold l :
  0 < maxDepth ->
  convertible fanOutBits hashFn maxDepth n ->
  getLink' n (Name child) = Some l ->
  exists n', addLinkNode fanOutBits hashFn maxDepth serializedSize
                         n child true threshold = Ok n'.
Proof.
  intros Hdepth Hconv Hl. destruct n as [links|root]; simpl in *.
  - rewrite andb_false_r.
    destruct (isOverShardThreshold _ _ _); [|by eexists].
    assert (Hhas : hasLink (Name child) links = true)
      by (apply find_hasLink; by eexists).
    destruct (convertToShardedDirectory_total fanOutBits hashFn maxDepth
                (insertLink child links) Hdepth) as [root ->]; [|by eexists].
    intros a b Ha Hb Hne.
    destruct (insertLink_present_name _ _ _ Hhas Ha) as (a0 & Ha0 & Ea).
    destruct (insertLink_present_name _ _ _ Hhas Hb) as (b0 & Hb0 & Eb).
    rewrite <- Ea, <- Eb. apply Hconv; [done|done|congruence].
  - rewrite andb_false_r.
    destruct (shardPut_present maxDepth 0 child root) as [root' ->];
      [by eexists|by eexists].
Qed.

End CommandFacts.

(** * Ancestor propagation *)

Section PathFacts.

Variable fanOutBits : N.
Variable hashFn : string -> N.
Variable maxDepth : nat.
Variable serializedSize : PBNode -> N.
Variable digest : PBNode -> positive.
Variable cumulativeSize : Block -> N.

(** Content addressing: different nodes have different digests. *)
Hypothesis digest_inj : forall n n', digest n = digest n' -> n = n'.

Local Abbreviation addLink' :=
  (addLink fanOutBits hashFn maxDepth serializedSize digest).
Local Abbreviation getLink' := (getLink fanOutBits hashFn maxDepth).
Local Abbreviation resolvePath' := (resolvePath fanOutBits hashFn maxDepth).
Local Abbreviation pathChanged' := (pathChanged fanOutBits hashFn maxDepth).
Local Abbreviation addressed := (contentAddressed digest).

Lemma persist_run v n w :
  persist digest v n w =
  (Ok (mkDirectory (cidOf digest v n) n),
   mkWorld (<[cidOf digest v n := DirectoryBlock n]> (blocks w))
           (BlockPut (cidOf digest v n) :: accesses w)).
Proof. done. Qed.

Lemma addressed_insert v n (store : gmap CID Block) :
  addressed store -> addressed (<[cidOf digest v n := DirectoryBlock n]> store).
Proof. intros Hca. by apply map_Forall_insert_2. Qed.

Lemma addressed_stored (store : gmap CID Block) d :
  addressed store -> stored store d -> multihash (cid d) = digest (node d).
Proof. intros Hca Hd. exact (Hca _ _ Hd). Qed.

Lemma resolvePath_head (store : gmap CID Block) c segments chain :
  resolvePath' store c segments = Some chain ->
  exists n rest, store !! c = Some (DirectoryBlock n) /\
                 chain = mkDirectory c n :: rest.
Proof.
  destruct segments as [|s segments]; simpl;
    destruct (store !! c) as [[n| | | |]|]; try done.
  - intros [= <-]. by eexists _, _.
  - destruct (getLink' n s) as [l|]; [|done]. simpl.
    destruct (resolvePath' store (Hash l) segments) as [rest|]; [|done].
    intros [= <-]. by eexists _, _.
Qed.

(** Writing a node leaves the directory blocks of a content-addressed
    store readable as they were. *)
Lemma lookup_insert_addressed v n (store : gmap CID Block) c n0 :
  addressed store ->
  store !! c = Some (DirectoryBlock n0) ->
  <[cidOf digest v n := DirectoryBlock n]> store !! c = Some (DirectoryBlock n0).
Proof.
  intros Hca Hc. destruct (decide (cidOf digest v n = c)) as [<-|Hne].
  - rewrite lookup_insert_eq. f_equal. f_equal.
    apply digest_inj. exact (Hca _ _ Hc).
  - by rewrite lookup_insert_ne.
Qed.

(** Writing a node does not disturb the paths a content-addressed
    store resolves. *)
Lemma resolvePath_insert v n (store : gmap CID Block) :
  addressed store ->
  forall segments c chain,
    resolvePath' store c segments = Some chain ->
    resolvePath' (<[cidOf digest v n := DirectoryBlock n]> store) c segments
    = Some chain.
Proof.
  intros Hca. induction segments as [|s segments IH]; intros c chain; simpl.
  - destruct (store !! c) as [[n0| | | |]|] eqn:Hc; try done.
    intros [= <-]. by rewrite (lookup_insert_addressed _ _ _ _ _ Hca Hc).
  - destruct (store !! c) as [[n0| | | |]|] eqn:Hc; try done.
    destruct (getLink' n0 s) as [l|] eqn:Hl; [|done]. simpl.
    destruct (resolvePath' store (Hash l) segments) as [rest|] eqn:Hrest; [|done].
    intros [= <-].
    rewrite (lookup_insert_addressed _ _ _ _ _ Hca Hc), Hl. simpl.
    by rewrite (IH _ _ Hrest).
Qed.

Local Abbreviation descend' := (descend fanOutBits hashFn maxDepth).
Local Abbreviation stackLinked' := (stackLinked fanOutBits hashFn maxDepth).

Lemma Directory_eta d : mkDirectory (cid d) (node d) = d.
Proof. by destruct d. Qed.

Lemma exporter_run c w :
  exporter c w =
  (match blocks w !! c with
   | Some b => Ok b
   | None => Err NotFoundError
   end, afterGet c w).
Proof.
  unfold exporter, bind, blockGet. simpl. by destruct (blocks w !! c).
Qed.

(** The descent along a path the store resolves succeeds, reads only,
    and records the ancestors of the path with their segments. *)
Lemma descend_spec : forall segments current stack w chain,
  stored (blocks w) current ->
  resolvePath' (blocks w) (cid current) segments = Some chain ->
  Forall (fun d => distinctNames (node d)) (take (length segments) chain) ->
  stackLinked' (blocks w) stack (cid current) ->
  exists stack' leaf w1,
    descend' current segments stack w = (Ok (stack', leaf), w1) /\
    blocks w1 = blocks w /\
    stored (blocks w) leaf /\
    stackLinked' (blocks w) stack' (cid leaf) /\
    (rev (fst <$> stack') ++ [leaf] = rev (fst <$> stack) ++ chain)%list /\
    (rev (snd <$> stack') = rev (snd <$> stack) ++ segments)%list.
Proof.
  induction segments as [|s segments IH]; intros current stack w chain
    Hcur Hres Hdist Hstack; simpl in Hres; rewrite Hcur in Hres.
  - injection Hres as <-. rewrite Directory_eta.
    exists stack, current, w. by rewrite app_nil_r.
  - destruct (getLink' (node current) s) as [l|] eqn:Hl; [|done]. simpl in Hres.
    destruct (resolvePath' (blocks w) (Hash l) segments) as [rest|] eqn:Hrest; [|done].
    injection Hres as <-. rewrite Directory_eta in Hdist. simpl in Hdist.
    destruct (resolvePath_head _ _ _ _ Hrest) as (n1 & rest' & Hn1 & ->).
    destruct (IH (mkDirectory (Hash l) n1) ((current, s) :: stack)
                 (afterGet (Hash l) w) (mkDirectory (Hash l) n1 :: rest'))
      as (stack' & leaf & w1 & Hrun & Hw1 & Hleaf & Hst & Hdirs & Hsegs).
    + exact Hn1.
    + exact Hrest.
    + by inversion Hdist.
    + econstructor; [exact Hcur| by inversion Hdist |exact Hl|done|done].
    + exists stack', leaf, w1. simpl. rewrite Hl.
      unfold bind at 1. rewrite exporter_run, Hn1, Hrun.
      repeat split; try done.
      * rewrite Hdirs, Directory_eta. simpl. by rewrite <- app_assoc.
      * rewrite Hsegs. simpl. by rewrite <- app_assoc.
Qed.

Local Abbreviation rewriteAncestors' :=
  (rewriteAncestors fanOutBits hashFn maxDepth serializedSize digest cumulativeSize).

Lemma pathChanged_head segments d old d' new :
  pathChanged' segments (d :: old) (d' :: new) -> cid d' <> cid d.
Proof.
  destruct segments; simpl.
  - by destruct old, new.
  - by intros [? _].
Qed.

(** Rewriting the recorded ancestors extends the changed path up to
    the root: the new root resolves the whole path in the new store,
    every ancestor has a new CID and keeps the links off the path. *)
Lemma rewriteAncestors_spec options store0 :
  addressed store0 ->
  forall stack child' childOld w root' w' segmentsB oldB newB,
    addressed (blocks w) ->
    stackLinked' store0 stack (cid childOld) ->
    resolvePath' (blocks w) (cid child') segmentsB = Some (child' :: newB) ->
    pathChanged' segmentsB (childOld :: oldB) (child' :: newB) ->
    rewriteAncestors' stack child' options w = (Ok root', w') ->
    exists new,
      resolvePath' (blocks w') (cid root') (rev (snd <$> stack) ++ segmentsB)%list
        = Some (root' :: new) /\
      pathChanged' (rev (snd <$> stack) ++ segmentsB)%list
                   (rev (fst <$> stack) ++ childOld :: oldB)%list
                   (root' :: new) /\
      addressed (blocks w').
Proof.
  intros Hca0.
  induction stack as [|[a s] rest IH];
    intros child' childOld w root' w' segmentsB oldB newB Hca Hstack Hres Hch Hrun.
  - injection Hrun as <- <-. by exists newB.
  - inversion Hstack as [|? ? ? ? l Ha Hdist Hl Hbelow Hrest]; subst.
    simpl in Hrun. unfold bind at 1, addLink in Hrun.
    set (child := mkLink s (cumulativeSize (DirectoryBlock (node child'))) (cid child')) in *.
    destruct (addLinkNode _ _ _ _ (node a) child _ _) as [n'|e] eqn:Hadd; [|done].
    rewrite persist_run in Hrun.
    set (a' := mkDirectory (cidOf digest _ n') n') in *.
    assert (Hsame : getLink' n' s = Some child)
      by exact (addLinkNode_get_same _ _ _ _ _ _ _ _ _ Hdist Hadd).
    assert (Hne : cid a' <> cid a).
    { intros Heq.
      assert (n' = node a) as ->.
      { apply digest_inj. rewrite <- (addressed_stored _ _ Hca0 Ha), <- Heq. done. }
      rewrite Hl in Hsame. injection Hsame as ->.
      by apply (pathChanged_head _ _ _ _ _ Hch). }
    match type of Hrun with
    | _ ?w1 = _ =>
      destruct (IH a' a w1 root' w' (s :: segmentsB) (childOld :: oldB) (child' :: newB))
        as (new & Hnew & Hpc & Hca')
    end.
    + by apply addressed_insert.
    + exact Hrest.
    + simpl. rewrite lookup_insert_eq, Hsame. simpl.
      by rewrite (resolvePath_insert _ _ _ Hca _ _ _ Hres).
    + simpl. split; [done|]. split; [|done].
      intros name Hname.
      exact (addLinkNode_get_other _ _ _ _ _ child _ _ _ name Hdist Hname Hadd).
    + exact Hrun.
    + exists new. simpl. rewrite <- !app_assoc. by simpl.
Qed.

Local Abbreviation updatePath' :=
  (updatePath fanOutBits hashFn maxDepth serializedSize digest cumulativeSize).

(** A change of the directory at the end of a path of any length: the
    new root resolves the path in the new store, and the path has
    changed as [pathChanged] says. *)
Lemma updatePath_spec root segments change options w R' w' old :
  addressed (blocks w) ->
  resolvePath' (blocks w) root segments = Some old ->
  Forall (fun d => distinctNames (node d)) (take (length segments) old) ->
  (forall target n', list.last old = Some target ->
                     change (node target) = Ok n' -> n' <> node target) ->
  updatePath' root segments change options w = (Ok R', w') ->
  exists new,
    resolvePath' (blocks w') R' segments = Some new /\
    pathChanged' segments old new /\
    cid <$> list.head new = Some R'.
Proof.
  intros Hca Hres Hdist Hchange Hrun.
  destruct (resolvePath_head _ _ _ _ Hres) as (n0 & rest & Hroot & Hold).
  unfold updatePath in Hrun. unfold bind at 1 in Hrun.
  rewrite cidToDirectory_run, Hroot in Hrun.
  destruct (descend_spec segments (mkDirectory root n0) [] (afterGet root w) old)
    as (stack & leaf & w1 & Hdesc & Hw1 & Hleaf & Hstack & Hdirs & Hsegs);
    [done|done|done|constructor|].
  simpl in Hw1, Hleaf, Hstack, Hdirs, Hsegs.
  unfold bind at 1 in Hrun. rewrite Hdesc in Hrun. simpl in Hrun.
  unfold bind at 1, mutate in Hrun.
  destruct (change (node leaf)) as [n'|e] eqn:Hn'; [|done].
  rewrite persist_run in Hrun.
  set (leaf' := mkDirectory (cidOf digest _ n') n') in *.
  unfold bind at 1 in Hrun.
  destruct (rewriteAncestors' _ _ _ _) as [[root'|e] w2] eqn:Hrw; [|done].
  injection Hrun as <- <-.
  assert (Hlast : list.last old = Some leaf) by (by rewrite <- Hdirs, list.last_snoc).
  assert (Hne : cid leaf' <> cid leaf).
  { intros Heq. apply (Hchange leaf n' Hlast Hn').
    apply digest_inj. rewrite <- (addressed_stored _ _ Hca Hleaf), <- Heq. done. }
  assert (Hca1 : addressed (blocks w1)) by (by rewrite Hw1).
  eapply (rewriteAncestors_spec options (blocks w) Hca stack leaf' leaf _ root' w2
            [] [] []) in Hrw as (new & Hnew & Hpc & _);
    [|by apply addressed_insert|done|simpl; by rewrite lookup_insert_eq|done].
  rewrite app_nil_r, Hsegs in Hnew, Hpc. rewrite Hdirs in Hpc.
  by exists (root' :: new).
Qed.

Local Abbreviation convertible' := (convertible fanOutBits hashFn maxDepth).

(** Rewriting the recorded ancestors has a result: every ancestor
    holds a link under its segment, which is written over. *)
Lemma rewriteAncestors_total options store0 : forall stack below child w,
  0 < maxDepth ->
  stackLinked' store0 stack below ->
  Forall (fun d => convertible' (node d)) (fst <$> stack) ->
  exists root' w', rewriteAncestors' stack child options w = (Ok root', w').
Proof.
  induction stack as [|[a s] rest IH]; intros below child w Hdepth Hstack Hconv.
  - by eexists _, _.
  - inversion Hstack as [|? ? ? ? l Ha Hdist Hl Hbelow Hrest]; subst.
    simpl in Hconv. apply list.Forall_cons in Hconv as [Hconv1 Hconv].
    simpl. unfold bind at 1, addLink.
    assert (prop (<["allowOverwriting" := VBool true]> options) "allowOverwriting"
            = VBool true) as -> by (unfold prop; by rewrite lookup_insert_eq).
    destruct (addLinkNode_overwrite_total fanOutBits hashFn maxDepth serializedSize
                (node a)
                (mkLink s (cumulativeSize (DirectoryBlock (node child))) (cid child))
                (prop (<["allowOverwriting" := VBool true]> options)
                      "shardSplitThresholdBytes") l Hdepth Hconv1 Hl)
      as [n' Hadd].
    change (truthy (VBool true)) with true. rewrite Hadd, persist_run.
    exact (IH _ _ _ Hdepth Hrest Hconv).
Qed.

(** A change that the directory at the end of a resolvable path
    accepts goes through: [updatePath] returns a new root. *)
Lemma updatePath_total root segments change options w old target n' :
  0 < maxDepth ->
  resolvePath' (blocks w) root segments = Some old ->
  Forall (fun d => distinctNames (node d)) (take (length segments) old) ->
  Forall (fun d => convertible' (node d)) (take (length segments) old) ->
  list.last old = Some target ->
  change (node target) = Ok n' ->
  exists R' w', updatePath' root segments change options w = (Ok R', w').
Proof.
  intros Hdepth Hres Hdist Hconv Hlast Hn'.
  destruct (resolvePath_head _ _ _ _ Hres) as (n0 & rest & Hroot & Hold).
  unfold updatePath. unfold bind at 1.
  rewrite cidToDirectory_run, Hroot.
  destruct (descend_spec segments (mkDirectory root n0) [] (afterGet root w) old)
    as (stack & leaf & w1 & Hdesc & Hw1 & Hleaf & Hstack & Hdirs & Hsegs);
    [done|done|done|constructor|].
  simpl in Hw1, Hleaf, Hstack, Hdirs, Hsegs.
  unfold bind at 1. rewrite Hdesc. simpl.
  assert (leaf = target) as ->.
  { rewrite <- Hdirs, list.last_snoc in Hlast. by injection Hlast. }
  unfold bind at 1, mutate. rewrite Hn', persist_run.
  assert (Hlen : length segments = length (rev (fst <$> stack))).
  { by rewrite <- Hsegs, !length_rev, !length_fmap. }
  rewrite <- Hdirs, Hlen, take_app_length in Hconv.
  apply Forall_rev in Hconv. rewrite rev_involutive in Hconv.
  unfold bind.
  match goal with
  | |- context [rewriteAncestors' stack ?child options ?w2] =>
    destruct (rewriteAncestors_total options (blocks w) stack (cid target)
                child w2 Hdepth Hstack Hconv) as (root' & w' & Hrw)
  end.
  rewrite Hrw. by eexists _, _.
Qed.

(** C8: a change of the directory three levels below the root (one
    that gives it a different node) gives that directory and each of
    its three ancestors a new CID, and every ancestor keeps, under
    every name other than its segment of the path, the link it had: the
    subtrees beside the path keep their CIDs.  The store is content
    addressed and the ancestors keep their link names distinct.  The
    new root is produced whenever the directory accepts the change and
    a hash segment tells apart every two names of a flat ancestor. *)
Theorem ancestor_propagation root s0 s1 s2 change options w D0 D1 D2 D3 :
  addressed (blocks w) ->
  resolvePath' (blocks w) root [s0; s1; s2] = Some [D0; D1; D2; D3] ->
  distinctNames (node D0) ->
  distinctNames (node D1) ->
  distinctNames (node D2) ->
  (forall n', change (node D3) = Ok n' -> n' <> node D3) ->
  (forall R' w',
     updatePath' root [s0; s1; s2] change options w = (Ok R', w') ->
     exists D0' D1' D2' D3',
       resolvePath' (blocks w') R' [s0; s1; s2] = Some [D0'; D1'; D2'; D3'] /\
       cid D0 = root /\ cid D0' = R' /\
       cid D3' <> cid D3 /\
       cid D2' <> cid D2 /\ cid D1' <> cid D1 /\ cid D0' <> cid D0 /\
       (forall name, name <> s0 ->
          getLink' (node D0') name = getLink' (node D0) name) /\
       (forall name, name <> s1 ->
          getLink' (node D1') name = getLink' (node D1) name) /\
       (forall name, name <> s2 ->
          getLink' (node D2') name = getLink' (node D2) name)) /\
  (0 < maxDepth ->
   convertible' (node D0) -> convertible' (node D1) -> convertible' (node D2) ->
   isOk (change (node D3)) = true ->
   exists R' w', updatePath' root [s0; s1; s2] change options w = (Ok R', w')).
Proof.
  intros Hca Hres H0 H1 H2 Hchange. split.
  - intros R' w' Hrun.
    destruct (updatePath_spec root [s0; s1; s2] change options w R' w'
                [D0; D1; D2; D3] Hca Hres) as (new & Hnew & Hpc & Hhead); [| |done|].
    + simpl. by repeat constructor.
    + intros target n' [= <-]. apply Hchange.
    + destruct new as [|D0' [|D1' [|D2' [|D3' [|? ?]]]]]; simpl in Hpc; try tauto.
      destruct Hpc as (N0 & F0 & N1 & F1 & N2 & F2 & N3).
      injection Hhead as <-.
      destruct (resolvePath_head _ _ _ _ Hres) as (n0 & rest & _ & [= -> _]).
      by exists D0', D1', D2', D3'.
  - intros Hdepth C0 C1 C2 Hok.
    destruct (change (node D3)) as [n3|e] eqn:Hn3; [|done].
    apply (updatePath_total root [s0; s1; s2] change options w
             [D0; D1; D2; D3] D3 n3); try done; simpl; by repeat constructor.
Qed.

End PathFacts.

(** * Removal from a shard *)

Section RemovalFacts.

Variable fanOutBits : N.
Variable hashFn : string -> N.

Local Abbreviation idx := (bucketIndex fanOutBits hashFn).
Local Abbreviation get := (shardGet fanOutBits hashFn).
Local Abbreviation remove := (shardRemove fanOutBits hashFn).
Local Abbreviation placed' := (placed fanOutBits hashFn).

Local Arguments shardGet : simpl never.
Local Arguments shardRemove : simpl never.
Local Arguments placed : simpl never.
Local Arguments shardForall : simpl never.

Lemma occupied_nil (node : ShardNode) j e :
  occupied node = [] -> node !! j = Some (Some e) -> False.
Proof.
  unfold occupied. revert j. induction node as [|o node IH]; intros j; [done|].
  destruct o as [x|]; simpl; [done|]. intros Hocc.
  destruct j as [|j]; simpl; [done|]. by apply IH.
Qed.

(** A node with one occupied bucket. *)
Lemma occupied_singleton (node : ShardNode) e :
  occupied node = [e] ->
  exists j, node !! j = Some (Some e) /\
            forall j' e', node !! j' = Some (Some e') -> j' = j /\ e' = e.
Proof.
  unfold occupied. induction node as [|o node IH]; [done|].
  destruct o as [x|]; simpl.
  - intros [= -> Hrest]. exists 0. split; [done|].
    intros [|j'] e'; simpl; [by intros [= ->]|].
    intros He'. by destruct (occupied_nil node j' e').
  - intros Hocc. destruct (IH Hocc) as (j & Hj & Huniq).
    exists (S j). split; [done|].
    intros [|j'] e'; simpl; [done|]. intros He'.
    destruct (Huniq j' e' He') as [-> ->]. done.
Qed.

Lemma collapse_cases (sub : ShardNode) :
  (exists l, occupied sub = [EntryLink l] /\ collapse sub = Some (EntryLink l)) \/
  collapse sub = Some (EntryShard sub).
Proof.
  unfold collapse. destruct (occupied sub) as [|[l|s] [|e2 rest]]; eauto.
Qed.

Lemma lookup_insert_free (node : ShardNode) i j e :
  <[i := None]> node !! j = Some (Some e) ->
  j <> i /\ node !! j = Some (Some e).
Proof.
  destruct (decide (i = j)) as [->|Hne].
  - destruct (decide (j < length node)).
    + by rewrite list_lookup_insert_eq.
    + rewrite list_insert_ge by lia. intros Hj.
      apply lookup_lt_Some in Hj. lia.
  - rewrite list_lookup_insert_ne by done. by split.
Qed.

Lemma shardRemove_step fuel depth name (node : ShardNode) :
  remove (S fuel) depth name node =
  match node !! idx name depth with
  | Some (Some (EntryLink l)) =>
    if decide (Name l = name) then Some (<[idx name depth := None]> node) else None
  | Some (Some (EntryShard sub)) =>
    sub' ← remove fuel (S depth) name sub;
    Some (<[idx name depth := collapse sub']> node)
  | _ => None
  end.
Proof. done. Qed.

(** Removal from a well-shaped shard: the shard stays well shaped,
    the name is gone, and every other name is found as before. *)
Lemma shardRemove_spec fuel : forall depth name (node node' : ShardNode),
  placed' fuel depth node ->
  remove fuel depth name node = Some node' ->
  placed' fuel depth node' /\
  (forall P : PBLink -> Prop, shardForall P fuel node -> shardForall P fuel node') /\
  get fuel depth name node' = None /\
  (forall other, other <> name -> get fuel depth other node' = get fuel depth other node).
Proof.
  induction fuel as [|fuel IH]; intros depth name node node' Hpl Hrm; [done|].
  destruct Hpl as [Hlen Hpl]. rewrite shardRemove_step in Hrm.
  destruct (node !! idx name depth) as [[[l|sub]|]|] eqn:Hslot; try done.
  - (* the bucket holds the link *)
    destruct (decide (Name l = name)) as [Hl|]; [|done]. injection Hrm as <-.
    assert (Hlt : idx name depth < length node) by (by eapply lookup_lt_Some).
    split; [|split; [|split]].
    + split; [by rewrite length_insert|]. intros j e He.
      apply lookup_insert_free in He as [_ He]. exact (Hpl _ _ He).
    + intros P HP j e He. apply lookup_insert_free in He as [_ He]. exact (HP _ _ He).
    + by rewrite shardGet_slot, list_lookup_insert_eq.
    + intros other Hother. rewrite !shardGet_slot.
      destruct (decide (idx name depth = idx other depth)) as [Ei|Ni];
        [|by rewrite list_lookup_insert_ne].
      rewrite <- Ei, list_lookup_insert_eq, Hslot by done. simpl.
      rewrite decide_False; [done|congruence].
  - (* the bucket holds a sub-shard *)
    destruct (remove fuel (S depth) name sub) as [sub'|] eqn:Hsub; [|done].
    injection Hrm as <-.
    assert (Hlt : idx name depth < length node) by (by eapply lookup_lt_Some).
    destruct (Hpl _ _ Hslot) as [Hpsub Hisub].
    destruct (IH _ _ _ _ Hpsub Hsub) as (Hpsub' & Hall & Hgone & Hkept).
    destruct (collapse_cases sub') as [(l & Hocc & ->)| ->].
    + (* one link is left: it moves up *)
      destruct (occupied_singleton _ _ Hocc) as (j & Hj & Huniq).
      destruct fuel as [|fuel']; [done|].
      pose proof (proj2 Hpsub' _ _ Hj) as Hjl. simpl in Hjl.
      assert (Hfind : forall m, get (S fuel') (S depth) m sub'
                                = if decide (Name l = m) then Some l else None).
      { intros m. rewrite shardGet_slot.
        destruct (sub' !! idx m (S depth)) as [[e|]|] eqn:Hm; simpl.
        - destruct (Huniq _ _ Hm) as [Hjm ->]. done.
        - case_decide as Hlm; [|done]. subst m. by rewrite Hjl, Hj in Hm.
        - case_decide as Hlm; [|done]. subst m. by rewrite Hjl, Hj in Hm. }
      split; [|split; [|split]].
      * split; [by rewrite length_insert|]. intros j' e He.
        apply lookup_insert_entry in He as [[-> ->]|He]; [|exact (Hpl _ _ He)].
        exact (Hall _ Hisub _ _ Hj).
      * intros P HP j' e He.
        apply lookup_insert_entry in He as [[-> ->]|He]; [|exact (HP _ _ He)].
        exact (Hall _ (HP _ _ Hslot) _ _ Hj).
      * rewrite shardGet_slot, list_lookup_insert_eq by done. simpl.
        by rewrite <- Hfind.
      * intros other Hother. rewrite !shardGet_slot.
        destruct (decide (idx name depth = idx other depth)) as [Ei|Ni];
          [|by rewrite list_lookup_insert_ne].
        rewrite <- Ei, list_lookup_insert_eq, Hslot by done. simpl.
        by rewrite <- Hfind, Hkept.
    + (* the sub-shard stays *)
      split; [|split; [|split]].
      * split; [by rewrite length_insert|]. intros j' e He.
        apply lookup_insert_entry in He as [[-> ->]|He]; [|exact (Hpl _ _ He)].
        split; [done|]. by apply Hall.
      * intros P HP j' e He.
        apply lookup_insert_entry in He as [[-> ->]|He]; [|exact (HP _ _ He)].
        apply Hall. exact (HP _ _ Hslot).
      * by rewrite shardGet_slot, list_lookup_insert_eq.
      * intros other Hother. rewrite !shardGet_slot.
        destruct (decide (idx name depth = idx other depth)) as [Ei|Ni];
          [|by rewrite list_lookup_insert_ne].
        rewrite <- Ei, list_lookup_insert_eq, Hslot by done. simpl.
        by apply Hkept.
Qed.

End RemovalFacts.

Section ShapeFacts.

Variable fanOutBits : N.
Variable hashFn : string -> N.
Variable maxDepth : nat.

Local Abbreviation put := (shardPut fanOutBits hashFn).
Local Abbreviation placed' := (placed fanOutBits hashFn).
Local Abbreviation separated' := (separated fanOutBits hashFn maxDepth).

(** The shard root a conversion gives is well shaped. *)
Lemma putAll_placed : forall (links : list PBLink) (node : ShardNode)
                             (Held : PBLink -> Prop),
  placed' maxDepth 0 node ->
  shardForall Held maxDepth node ->
  (forall a b, Held a \/ a ∈ links -> b ∈ links -> Name a <> Name b ->
               separated' (Name a) (Name b)) ->
  exists root,
    foldl (fun acc l => acc ≫= put maxDepth 0 l) (Some node) links = Some root /\
    placed' maxDepth 0 root.
Proof.
  induction links as [|x links IH]; intros node Held Hpl Hheld Hsep; [by eexists|].
  destruct (shardPut_total fanOutBits hashFn maxDepth maxDepth 0 x node)
    as (node' & Hput & Hpl' & Hall).
  - lia.
  - done.
  - eapply shardForall_impl; [|exact Hheld]. intros l _ d Hd. lia.
  - eapply shardForall_impl; [|exact Hheld]. intros l Hl Hne.
    apply Hsep; [by left|left|done].
  - simpl. rewrite Hput.
    apply (IH node' (fun l => Held l \/ l = x)); [done| |].
    + apply Hall; [by right|].
      eapply shardForall_impl; [|exact Hheld]. intros l Hl. by left.
    + intros a b [[Ha| ->]|Ha] Hb Hne; apply Hsep; auto; try (by right);
        right; by (left || right).
Qed.

Lemma convertToShardedDirectory_wellShaped (links : list PBLink) :
  0 < maxDepth ->
  (forall a b, a ∈ links -> b ∈ links -> Name a <> Name b ->
               separated' (Name a) (Name b)) ->
  exists root,
    convertToShardedDirectory fanOutBits hashFn maxDepth links = Some root /\
    wellShaped fanOutBits hashFn maxDepth (ShardedNode root).
Proof.
  intros Hdepth Hsep. unfold convertToShardedDirectory.
  apply (putAll_placed links (emptyShard fanOutBits) (fun _ => False)).
  - by apply placed_empty.
  - apply shardForall_empty.
  - intros a b [[]|Ha] Hb. by apply Hsep.
Qed.

End ShapeFacts.

(** * Further properties of the commands *)

Section CommandExtras.

Variable fanOutBits : N.
Variable hashFn : string -> N.
Variable maxDepth : nat.
Variable serializedSize : PBNode -> N.
Variable digest : PBNode -> positive.
Variable cumulativeSize : Block -> N.
Variable SHARD_SPLIT_THRESHOLD_BYTES : N.
Variable raceLeftFirst : bool.

Local Abbreviation getLink' := (getLink fanOutBits hashFn maxDepth).
Local Abbreviation cp' :=
  (cp fanOutBits hashFn maxDepth serializedSize digest cumulativeSize
      SHARD_SPLIT_THRESHOLD_BYTES raceLeftFirst).
Local Abbreviation rm' :=
  (rm fanOutBits hashFn maxDepth digest SHARD_SPLIT_THRESHOLD_BYTES).
Local Abbreviation cpDefaults := (cpDefaultOptions SHARD_SPLIT_THRESHOLD_BYTES).
Local Abbreviation rmDefaults := (rmDefaultOptions SHARD_SPLIT_THRESHOLD_BYTES).

(** *** Merging the options *)

Lemma mergeOptions_undefined (d o : gmap string JSValue) k :
  mergeOptions d (<[k := VUndefined]> o) = mergeOptions d (delete k o).
Proof.
  apply map_eq. intros i. rewrite !lookup_mergeOptions.
  destruct (decide (k = i)) as [->|Hne].
  - by rewrite lookup_insert_eq, lookup_delete_eq.
  - by rewrite lookup_insert_ne, lookup_delete_ne.
Qed.

Lemma mergeOptions_default (d o : gmap string JSValue) k v :
  o !! k = None -> d !! k = Some v -> isDefined v = true ->
  mergeOptions d (<[k := v]> o) = mergeOptions d o.
Proof.
  intros Ho Hd Hv. apply map_eq. intros i. rewrite !lookup_mergeOptions.
  destruct (decide (k = i)) as [<-|Hne].
  - by rewrite lookup_insert_eq, Ho, Hv, Hd.
  - by rewrite lookup_insert_ne.
Qed.

Lemma cpDefaults_defined k v : cpDefaults !! k = Some v -> isDefined v = true.
Proof.
  unfold cpDefaultOptions. intros Hk.
  apply lookup_insert_Some in Hk as [[_ <-]|[_ Hk]]; [done|].
  apply lookup_insert_Some in Hk as [[_ <-]|[_ Hk]]; [done|].
  by rewrite lookup_empty in Hk.
Qed.

Lemma rmDefaults_defined k v : rmDefaults !! k = Some v -> isDefined v = true.
Proof.
  unfold rmDefaultOptions. intros Hk.
  apply lookup_insert_Some in Hk as [[_ <-]|[_ Hk]]; [done|].
  by rewrite lookup_empty in Hk.
Qed.

(** X1: an option given as [undefined] is an option left out
    ([ignoreUndefined]): [cp] and [rm] run the same with the property
    set to [undefined] as with the property deleted. *)
Theorem cp_rm_undefined_option source target name options k w :
  cp fanOutBits hashFn maxDepth serializedSize digest cumulativeSize
     SHARD_SPLIT_THRESHOLD_BYTES raceLeftFirst
     source target name (<[k := VUndefined]> options) w
  = cp fanOutBits hashFn maxDepth serializedSize digest cumulativeSize
       SHARD_SPLIT_THRESHOLD_BYTES raceLeftFirst
       source target name (delete k options) w /\
  rm fanOutBits hashFn maxDepth digest SHARD_SPLIT_THRESHOLD_BYTES
     target name (<[k := VUndefined]> options) w
  = rm fanOutBits hashFn maxDepth digest SHARD_SPLIT_THRESHOLD_BYTES
       target name (delete k options) w.
Proof. unfold cp, rm. by rewrite !mergeOptions_undefined. Qed.

(** X2: giving a default explicitly changes nothing: [cp] and [rm]
    run the same with a property of [defaultOptions] added at its
    default value as with that property left out. *)
Theorem cp_rm_explicit_default source target name options k v w :
  options !! k = None ->
  (cpDefaultOptions SHARD_SPLIT_THRESHOLD_BYTES !! k = Some v ->
   cp' source target name (<[k := v]> options) w
     = cp' source target name options w) /\
  (rmDefaultOptions SHARD_SPLIT_THRESHOLD_BYTES !! k = Some v ->
   rm' target name (<[k := v]> options) w = rm' target name options w).
Proof.
  intros Ho. split; intros Hd.
  - unfold cp. by rewrite (mergeOptions_default _ _ _ _ Ho Hd (cpDefaults_defined _ _ Hd)).
  - unfold rm. by rewrite (mergeOptions_default _ _ _ _ Ho Hd (rmDefaults_defined _ _ Hd)).
Qed.

(** X3: [cp] spreads the caller's options last, so every property the
    caller defines reaches [addLink] as given: an [allowOverwriting]
    or a [cidVersion] in the object replaces [opts.force] and
    [target.version]. *)
Theorem cp_options_reach_addLink target (options : gmap string JSValue) k v :
  options !! k = Some v ->
  isDefined v = true ->
  prop (cpAddLinkOptions target (mergeOptions cpDefaults options)) k = v.
Proof.
  intros Hk Hv. unfold prop, cpAddLinkOptions.
  rewrite lookup_union, lookup_mergeOptions, Hk, Hv.
  by destruct (<["allowOverwriting" := _]> _ !! k).
Qed.

(** X4: a target CID that the store does not hold: [rm] fails with the
    exporter's [NotFoundError] after that one read, and [cp] fails with
    [NotFoundError] whichever rejection settles first; nothing is
    written. *)
Theorem cp_rm_missing_target source target name cpOptions rmOptions w :
  includesSlash name = false ->
  blocks w !! target = None ->
  rm' target name rmOptions w = (Err NotFoundError, afterGet target w) /\
  cp' source target name cpOptions w
    = (Err NotFoundError, afterGet source (afterGet target w)).
Proof.
  intros Hname Htgt. unfold cp, rm. rewrite Hname. split.
  - unfold bind at 1. by rewrite cidToDirectory_run, Htgt.
  - unfold bind at 1, promiseAll2.
    rewrite cidToDirectory_run, Htgt, cidToPBLink_run. simpl.
    by destruct (blocks w !! source), raceLeftFirst.
Qed.

(** *** What a run of [cp] and of [rm] amounts to *)

Local Abbreviation addLinkNode' :=
  (addLinkNode fanOutBits hashFn maxDepth serializedSize).
Local Abbreviation removeLinkNode' := (removeLinkNode fanOutBits hashFn maxDepth).

Lemma cp_run source target name options w bsrc D :
  includesSlash name = false ->
  blocks w !! source = Some bsrc ->
  blocks w !! target = Some (DirectoryBlock D) ->
  cp' source target name options w =
  let opts := cpAddLinkOptions target (mergeOptions cpDefaults options) in
  let w2 := afterGet source (afterGet target w) in
  match addLinkNode' D (mkLink name (cumulativeSize bsrc) source)
          (truthy (prop opts "allowOverwriting"))
          (prop opts "shardSplitThresholdBytes") with
  | Err e => (Err e, w2)
  | Ok n =>
    let c := cidOf digest (cidVersionOf (prop opts "cidVersion")) n in
    (Ok c, mkWorld (<[c := DirectoryBlock n]> (blocks w))
                   (BlockPut c :: accesses w2))
  end.
Proof.
  intros Hname Hsrc Htgt. unfold cp. rewrite Hname.
  unfold bind at 1, promiseAll2.
  rewrite cidToDirectory_run, Htgt, cidToPBLink_run. simpl. rewrite Hsrc.
  unfold bind, addLink. simpl.
  by destruct (addLinkNode _ _ _ _ _ _ _ _).
Qed.

Lemma cp_Ok_inv source target name options w c w' :
  cp' source target name options w = (Ok c, w') ->
  includesSlash name = false /\
  exists bsrc D, blocks w !! source = Some bsrc /\
                 blocks w !! target = Some (DirectoryBlock D).
Proof.
  unfold cp. destruct (includesSlash name); [done|].
  unfold bind at 1, promiseAll2.
  rewrite cidToDirectory_run, cidToPBLink_run. simpl.
  destruct (blocks w !! target) as [[D| | | |]|], (blocks w !! source) as [bsrc|];
    try done.
  intros _. split; [done|]. by eexists _, _.
Qed.

Lemma rm_run target name options w D :
  includesSlash name = false ->
  blocks w !! target = Some (DirectoryBlock D) ->
  rm' target name options w =
  match removeLinkNode' D name with
  | Err e => (Err e, afterGet target w)
  | Ok n =>
    let c := cidOf digest (version target) n in
    (Ok c, mkWorld (<[c := DirectoryBlock n]> (blocks w))
                   (BlockPut c :: BlockGet target :: accesses w))
  end.
Proof.
  intros Hname Htgt. unfold rm. rewrite Hname.
  unfold bind at 1. rewrite cidToDirectory_run, Htgt.
  unfold bind, removeLink. simpl.
  rewrite rmRemoveLinkOptions_cidVersion, cidVersionOf_versionNumber.
  by destruct (removeLinkNode _ _ _ _ _).
Qed.



(** X6: [cp] into a flat directory succeeds when the name is new or
    [force] is true, and the directory with the link inserted is not
    over the threshold in force (the caller's or the default). *)
Theorem cp_succeeds source target name options w bsrc links :
  PartialCpOptions options ->
  includesSlash name = false ->
  blocks w !! source = Some bsrc ->
  blocks w !! target = Some (DirectoryBlock (FlatNode links)) ->
  hasLink name links = false \/ options !! "force" = Some (VBool true) ->
  isOverShardThreshold serializedSize
    (FlatNode (insertLink (mkLink name (cumulativeSize bsrc) source) links))
    (prop (mergeOptions cpDefaults options) "shardSplitThresholdBytes") = false ->
  exists c w', cp' source target name options w = (Ok c, w') /\
               blocks w' !! c
               = Some (DirectoryBlock
                         (FlatNode (insertLink (mkLink name (cumulativeSize bsrc) source)
                                               links))).
Proof.
  intros Ho Hname Hsrc Htgt Hallowed Hsize.
  rewrite (cp_run _ _ _ _ _ _ _ Hname Hsrc Htgt). simpl.
  rewrite (cpAddLinkOptions_allowOverwriting _ _ _ Ho).
  rewrite cpAddLinkOptions_other by done. rewrite Hsize.
  assert (Hguard : hasLink name links
                   && negb (truthy (prop (mergeOptions cpDefaults options) "force"))
                   = false).
  { destruct Hallowed as [->|Hforce]; [done|].
    unfold prop. rewrite lookup_mergeOptions, Hforce. simpl. apply andb_false_r. }
  rewrite Hguard. eexists _, _. split; [done|]. simpl. apply lookup_insert_eq.
Qed.

(** X7: with [force], copying the same source under the same name
    into the directory [cp] returned returns that directory again and
    leaves the blocks as they are. *)
Theorem cp_twice source target name options w c w1 :
  PartialCpOptions options ->
  options !! "force" = Some (VBool true) ->
  c <> source ->
  cp' source target name options w = (Ok c, w1) ->
  exists w2, cp' source c name options w1 = (Ok c, w2) /\ blocks w2 = blocks w1.
Proof.
  intros Ho Hforce Hc Hrun.
  destruct (cp_Ok_inv _ _ _ _ _ _ _ Hrun) as (Hname & bsrc & D & Hsrc & Htgt).
  rewrite (cp_run _ _ _ _ _ _ _ Hname Hsrc Htgt) in Hrun. simpl in Hrun.
  rewrite (cpAddLinkOptions_allowOverwriting _ _ _ Ho) in Hrun.
  rewrite (cpAddLinkOptions_cidVersion _ _ _ Ho), cidVersionOf_versionNumber in Hrun.
  rewrite cpAddLinkOptions_other in Hrun by done.
  assert (Hallow : truthy (prop (mergeOptions cpDefaults options) "force") = true).
  { unfold prop. by rewrite lookup_mergeOptions, Hforce. }
  rewrite Hallow in Hrun.
  destruct (addLinkNode _ _ _ _ _ _ _ _) as [n|e] eqn:Hadd; [|done].
  injection Hrun as <- <-.
  rewrite (cp_run source _ name options _ bsrc n Hname).
  - simpl. rewrite (cpAddLinkOptions_allowOverwriting _ _ _ Ho).
    rewrite (cpAddLinkOptions_cidVersion _ _ _ Ho), cidVersionOf_versionNumber.
    rewrite cpAddLinkOptions_other by done. rewrite Hallow.
    rewrite (addLinkNode_idem _ _ _ _ _ _ _ _ Hadd). simpl.
    eexists. split; [done|]. simpl. apply insert_id, lookup_insert_eq.
  - simpl. by rewrite lookup_insert_ne.
  - simpl. apply lookup_insert_eq.
Qed.

Local Abbreviation wellShaped' := (wellShaped fanOutBits hashFn maxDepth).

Lemma find_filter_gone name (links : list PBLink) :
  find (fun l => bool_decide (Name l = name))
       (filter (fun l => Name l <> name) links) = None.
Proof.
  induction links as [|l links IH]; [done|].
  rewrite filter_cons. case_decide as Hl; [|done].
  simpl. by rewrite bool_decide_eq_false_2.
Qed.

Lemma find_filter_other name other (links : list PBLink) :
  other <> name ->
  find (fun l => bool_decide (Name l = other))
       (filter (fun l => Name l <> name) links)
  = find (fun l => bool_decide (Name l = other)) links.
Proof.
  intros Hother. induction links as [|l links IH]; [done|].
  rewrite filter_cons. case_decide as Hl; simpl.
  - by rewrite IH.
  - rewrite bool_decide_eq_false_2 by congruence. done.
Qed.

(** What [removeLink] leaves of the links. *)
Lemma removeLinkNode_spec D name n :
  wellShaped' D ->
  removeLinkNode' D name = Ok n ->
  wellShaped' n /\
  getLink' n name = None /\
  forall other, other <> name -> getLink' n other = getLink' D other.
Proof.
  destruct D as [links|root]; simpl; intros Hshape.
  - destruct (hasLink name links); [|done]. intros [= <-]. simpl.
    split; [done|]. split; [apply find_filter_gone|].
    intros other Hother. by apply find_filter_other.
  - destruct (shardRemove _ _ _ _ _ _) as [root'|] eqn:Hrm; [|done].
    intros [= <-]. simpl.
    destruct (shardRemove_spec _ _ _ _ _ _ _ Hshape Hrm) as (Hpl & _ & Hgone & Hkept).
    done.
Qed.

(** X8: after a successful [rm] the store holds, under the CID
    returned, a directory in which [name] is no link any more and every
    other name has the link it had in the target. *)
Theorem rm_removes_link target name options w c w' D :
  blocks w !! target = Some (DirectoryBlock D) ->
  wellShaped fanOutBits hashFn maxDepth D ->
  rm' target name options w = (Ok c, w') ->
  exists n,
    blocks w' !! c = Some (DirectoryBlock n) /\
    getLink' n name = None /\
    forall other, other <> name -> getLink' n other = getLink' D other.
Proof.
  intros Htgt Hshape Hrun.
  assert (Hname : includesSlash name = false).
  { unfold rm in Hrun. by destruct (includesSlash name). }
  rewrite (rm_run _ _ _ _ _ Hname Htgt) in Hrun.
  destruct (removeLinkNode _ _ _ _ _) as [n|e] eqn:Hrm; [|done].
  injection Hrun as <- <-. exists n. simpl. split; [apply lookup_insert_eq|].
  by destruct (removeLinkNode_spec _ _ _ Hshape Hrm) as (_ & ? & ?).
Qed.

Lemma filter_snoc_fresh name child (links : list PBLink) :
  hasLink name links = false -> Name child = name ->
  filter (fun l => Name l <> name) (links ++ [child])%list = links.
Proof.
  intros Hhas Hchild. rewrite list.filter_app.
  rewrite (filter_cons _ child), decide_False by (intros ?; done).
  rewrite filter_nil, app_nil_r.
  induction links as [|l links IH]; [done|].
  simpl in Hhas. apply orb_false_iff in Hhas as [Hl Hrest].
  rewrite filter_cons, decide_True by (by apply bool_decide_eq_false in Hl).
  by rewrite IH.
Qed.

(** X10: [rm] undoes [cp]: copying under a new name into a flat
    directory, such that the directory with the link is not over the
    threshold, and removing that name from the directory returned,
    gives back the CID of the directory (the store being content
    addressed at the target). *)
Theorem cp_then_rm source target name cpOptions rmOptions w c w1 bsrc links :
  PartialCpOptions cpOptions ->
  blocks w !! source = Some bsrc ->
  blocks w !! target = Some (DirectoryBlock (FlatNode links)) ->
  multihash target = digest (FlatNode links) ->
  hasLink name links = false ->
  isOverShardThreshold serializedSize
    (FlatNode (links ++ [mkLink name (cumulativeSize bsrc) source])%list)
    (prop (mergeOptions cpDefaults cpOptions) "shardSplitThresholdBytes") = false ->
  cp' source target name cpOptions w = (Ok c, w1) ->
  exists w2, rm' c name rmOptions w1 = (Ok target, w2).
Proof.
  intros Ho Hsrc Htgt Hhash Hfresh Hsize Hrun.
  destruct (cp_Ok_inv _ _ _ _ _ _ _ Hrun) as (Hname & _).
  rewrite (cp_run _ _ _ _ _ _ _ Hname Hsrc Htgt) in Hrun. simpl in Hrun.
  rewrite (cpAddLinkOptions_cidVersion _ _ _ Ho), cidVersionOf_versionNumber in Hrun.
  rewrite (cpAddLinkOptions_other _ _ "shardSplitThresholdBytes") in Hrun by done.
  unfold insertLink in Hrun. simpl in Hrun. rewrite Hfresh in Hrun.
  simpl in Hrun. rewrite Hsize in Hrun. injection Hrun as <- <-.
  rewrite (rm_run _ _ _ _
             (FlatNode (links ++ [mkLink name (cumulativeSize bsrc) source])%list)
             Hname) by (simpl; apply lookup_insert_eq).
  simpl.
  assert (Hhas : hasLink name (links ++ [mkLink name (cumulativeSize bsrc) source])%list
                 = true).
  { apply hasLink_elem. exists (mkLink name (cumulativeSize bsrc) source).
    split; [|done]. apply elem_of_app. right. left. }
  rewrite Hhas, (filter_snoc_fresh name) by done.
  eexists. f_equal. f_equal. destruct target as [v h]. simpl in *. by subst.
Qed.

End CommandExtras.

(** * The reference digest is collision free *)

Lemma entryTree_inj e : forall e', Demo.entryTree e = Demo.entryTree e' -> e = e'.
Proof.
  induction e as [l|buckets IH] using ShardEntry_nested_ind;
    intros [l'|buckets']; simpl; try done.
  - by intros [= ->].
  - intros [= Heq]. f_equal.
    revert buckets' Heq. induction IH as [|o bs Ho _ IHbs]; intros [|o' bs']; simpl;
      try done.
    intros [= Ho' Hbs]. f_equal; [|by apply IHbs].
    destruct o as [e|], o' as [e'|]; try done.
    injection Ho' as He. f_equal. by apply Ho.
Qed.

Lemma nodeTree_inj n n' : Demo.nodeTree n = Demo.nodeTree n' -> n = n'.
Proof.
  destruct n as [links|root], n' as [links'|root']; simpl; try done.
  - intros [= Heq]. f_equal.
    revert links' Heq. induction links as [|l links IH]; intros [|l' links']; simpl;
      try done.
    intros [= -> Hrest]. f_equal. by apply IH.
  - intros [= Heq]. f_equal.
    assert (Hroot : EntryShard root = EntryShard root')
      by (apply entryTree_inj; simpl; by f_equal).
    by injection Hroot.
Qed.

Lemma Demo_digest_inj n n' : Demo.digest n = Demo.digest n' -> n = n'.
Proof.
  unfold Demo.digest. intros Heq. apply nodeTree_inj.
  by apply (inj encode).
Qed.

(** A run that succeeded returned its value. *)
Lemma run_returned {A} (d : A) (r : result A * World) :
  isOk (fst r) = true -> r = (Ok (Demo.returned d (fst r)), snd r).
Proof. by destruct r as [[a|e] w]. Qed.

(** * The claims on the reference instance *)

Section Witnesses.

Import Demo.

Local Abbreviation cpD :=
  (cp fanOutBits hashFn maxDepth serializedSize digest cumulativeSize threshold true).
Local Abbreviation rmD := (rm fanOutBits hashFn maxDepth digest threshold).
Local Abbreviation addLinkD := (addLink fanOutBits hashFn maxDepth serializedSize digest).
Local Abbreviation removeLinkD := (removeLink fanOutBits hashFn maxDepth digest).

(** Copying the file as [bar] into the leaf directory, which holds a
    [bar]. *)
Lemma cp_existing_name_refused_witness :
  exists w', cpD fileCid leafCid "bar" ∅ world = (Err AlreadyExistsError, w') /\
             blocks w' = blocks world.
Proof.
  apply (cp_existing_name_refused fanOutBits hashFn maxDepth serializedSize digest
           cumulativeSize threshold true fileCid leafCid "bar" ∅ world
           (FileBlock 4) leafDir).
  - apply map_Forall_empty.
  - by left.
  - reflexivity.
  - by vm_compute.
  - by vm_compute.
  - apply (bool_decide_unpack _). by vm_compute.
Defined.

(** Three links converted in two orders. *)
Lemma convert_order_independent_witness :
  convertToShardedDirectory fanOutBits hashFn maxDepth [barLink; fooLink; bazLink]
  = convertToShardedDirectory fanOutBits hashFn maxDepth [bazLink; barLink; fooLink] /\
  is_Some (convertToShardedDirectory fanOutBits hashFn maxDepth [barLink; fooLink; bazLink]).
Proof.
  destruct (convert_order_independent fanOutBits hashFn maxDepth digest
              [barLink; fooLink; bazLink] [bazLink; barLink; fooLink])
    as (Heq & _ & _ & Htotal).
  - apply (bool_decide_unpack _). by vm_compute.
  - apply (Permutation_app_comm [barLink; fooLink] [bazLink]).
  - split; [exact Heq|]. apply Htotal; [unfold maxDepth; lia|].
    intros a b Ha Hb Hne.
    repeat (apply elem_of_cons in Ha as [->|Ha]); try (by apply elem_of_nil in Ha);
      repeat (apply elem_of_cons in Hb as [->|Hb]); try (by apply elem_of_nil in Hb);
      try done;
      first [ by (exists 0; split; [unfold maxDepth; lia|by vm_compute])
            | by (exists 1; split; [unfold maxDepth; lia|by vm_compute])
            | by (exists 2; split; [unfold maxDepth; lia|by vm_compute])
            | by (exists 3; split; [unfold maxDepth; lia|by vm_compute]) ].
Defined.

(** Names of the reference instance are told apart by one of the
    four hash segments. *)
Ltac told_apart Ha Hb :=
  repeat (apply elem_of_cons in Ha as [->|Ha]); try (by apply elem_of_nil in Ha);
  repeat (apply elem_of_cons in Hb as [->|Hb]); try (by apply elem_of_nil in Hb);
  try done;
  first [ by (exists 0; split; [unfold maxDepth; lia|by vm_compute])
        | by (exists 1; split; [unfold maxDepth; lia|by vm_compute])
        | by (exists 2; split; [unfold maxDepth; lia|by vm_compute])
        | by (exists 3; split; [unfold maxDepth; lia|by vm_compute]) ].

(** A third link takes a directory of two to 124 bytes: under a
    threshold of 124 bytes it stays flat, under one of 123 bytes it is
    converted. *)
Lemma addLink_threshold_boundary_witness :
  (exists r w',
     addLinkD (mkDirectory cidA dirA) fooLink
              (<["shardSplitThresholdBytes" := VNumber 124]> ∅) world = (Ok r, w') /\
     node r = FlatNode [bazLink; mkLink "b" 84 cidB; fooLink] /\
     isSharded (node r) = false) /\
  (exists r w' root,
     addLinkD (mkDirectory cidA dirA) fooLink
              (<["shardSplitThresholdBytes" := VNumber 123]> ∅) world = (Ok r, w') /\
     convertToShardedDirectory fanOutBits hashFn maxDepth
                               [bazLink; mkLink "b" 84 cidB; fooLink] = Some root /\
     node r = ShardedNode root /\
     isSharded (node r) = true).
Proof.
  split.
  - destruct (addLink_threshold_boundary fanOutBits hashFn maxDepth serializedSize digest
                (mkDirectory cidA dirA) fooLink
                (<["shardSplitThresholdBytes" := VNumber 124]> ∅)
                [bazLink; mkLink "b" 84 cidB] 124 world) as [_ Hgiven];
      [reflexivity|reflexivity|].
    destruct (Hgiven (or_introl eq_refl)) as [Hflat _].
    destruct Hflat as (r & w' & Hrun & Hnode); [vm_compute; discriminate|].
    exists r, w'. split; [exact Hrun|]. split; [exact Hnode|].
    rewrite Hnode. reflexivity.
  - destruct (addLink_threshold_boundary fanOutBits hashFn maxDepth serializedSize digest
                (mkDirectory cidA dirA) fooLink
                (<["shardSplitThresholdBytes" := VNumber 123]> ∅)
                [bazLink; mkLink "b" 84 cidB] 123 world) as [Hiff Hgiven];
      [reflexivity|reflexivity|].
    destruct (Hgiven (or_introl eq_refl)) as [_ Hsharded].
    destruct Hsharded as (r & w' & root & Hrun & Hroot & Hnode).
    + reflexivity.
    + unfold maxDepth. lia.
    + intros a b Ha Hb Hne.
      change (a ∈ [bazLink; mkLink "b" 84 cidB; fooLink]) in Ha.
      change (b ∈ [bazLink; mkLink "b" 84 cidB; fooLink]) in Hb.
      told_apart Ha Hb.
    + exists r, w', root. split; [exact Hrun|]. split; [exact Hroot|].
      split; [exact Hnode|]. apply (Hiff r w' Hrun). reflexivity.
Defined.

(** Removing [bar] from the sharded directory of three links. *)
Lemma removeLink_stays_sharded_witness :
  (exists r w', removeLinkD (mkDirectory shardedCid shardedDir) "bar" ∅ world
                = (Ok r, w') /\
                isSharded (node r) = true) /\
  (exists c w' n, rmD shardedCid "bar" ∅ world = (Ok c, w') /\
                  blocks w' !! c = Some (DirectoryBlock n) /\
                  isSharded n = true).
Proof.
  destruct (removeLink_stays_sharded fanOutBits hashFn maxDepth digest threshold
              (mkDirectory shardedCid shardedDir) "bar" ∅ shardedRoot world)
    as [Hremove Hrm].
  - reflexivity.
  - apply (bool_decide_unpack _). by vm_compute.
  - split; [exact Hremove|]. apply Hrm; [reflexivity|by vm_compute].
Defined.

(** Adding [foo.txt] twice, the first time across the threshold. *)
Lemma addLink_overwrite_idempotent_witness :
  exists r1 w1,
    addLinkD (mkDirectory cidA dirA) fooLink
      (<["allowOverwriting" := VBool true]>
         (<["shardSplitThresholdBytes" := VNumber 100]> ∅)) world = (Ok r1, w1) /\
    isSharded (node r1) = true /\
    exists w2,
      addLinkD r1 fooLink
        (<["allowOverwriting" := VBool true]>
           (<["shardSplitThresholdBytes" := VNumber 100]> ∅)) w1 = (Ok r1, w2) /\
      blocks w2 = blocks w1.
Proof.
  eexists _, _. split; [reflexivity|]. split; [reflexivity|].
  eapply (addLink_overwrite_idempotent fanOutBits hashFn maxDepth serializedSize digest
            (mkDirectory cidA dirA) fooLink _ world); reflexivity.
Defined.

(** A target under a version 0 CID: the block written is the new
    directory, under the version 0 CID of it. *)
Lemma cp_rm_keep_cid_version_witness :
  (exists c w',
     cpD fileCid dirCid "foo.txt" (<["force" := VBool true]> ∅) world = (Ok c, w') /\
     version c = V0 /\
     c = cidOf digest V0 (FlatNode [barLink; fooLink]) /\
     blocks w' !! c = Some (DirectoryBlock (FlatNode [barLink; fooLink])) /\
     accesses w' = [BlockPut c; BlockGet fileCid; BlockGet dirCid]) /\
  (exists c w',
     rmD dirCid "bar" ∅ world = (Ok c, w') /\
     version c = V0 /\
     c = cidOf digest V0 (FlatNode []) /\
     blocks w' !! c = Some (DirectoryBlock (FlatNode [])) /\
     accesses w' = [BlockPut c; BlockGet dirCid]).
Proof.
  destruct (cp_rm_keep_cid_version fanOutBits hashFn maxDepth serializedSize digest
              cumulativeSize threshold true fileCid dirCid "foo.txt"
              (<["force" := VBool true]> ∅) ∅ world) as [Hcp _].
  { apply map_Forall_insert_2; [reflexivity|apply map_Forall_empty]. }
  destruct (cp_rm_keep_cid_version fanOutBits hashFn maxDepth serializedSize digest
              cumulativeSize threshold true fileCid dirCid "bar"
              (<["force" := VBool true]> ∅) ∅ world) as [_ Hrm].
  { apply map_Forall_insert_2; [reflexivity|apply map_Forall_empty]. }
  split.
  - pose proof (run_returned dirCid
                   (cpD fileCid dirCid "foo.txt" (<["force" := VBool true]> ∅) world))
      as Hrun.
    specialize (Hrun ltac:(vm_compute; reflexivity)).
    destruct (Hcp _ _ Hrun)
      as (Hv & D & bsrc & n & HD & Hsrc & Hadd & Hc & Hblock & _ & Hacc).
    vm_compute in HD. injection HD as <-.
    vm_compute in Hsrc. injection Hsrc as <-.
    vm_compute in Hadd. injection Hadd as <-.
    eexists _, _. split; [exact Hrun|]. split; [exact Hv|].
    split; [exact Hc|]. split; [exact Hblock|exact Hacc].
  - pose proof (run_returned dirCid (rmD dirCid "bar" ∅ world)) as Hrun.
    specialize (Hrun ltac:(vm_compute; reflexivity)).
    destruct (Hrm _ _ Hrun) as (Hv & D & n & HD & Hrem & Hc & Hblock & _ & Hacc).
    vm_compute in HD. injection HD as <-.
    vm_compute in Hrem. injection Hrem as <-.
    eexists _, _. split; [exact Hrun|]. split; [exact Hv|].
    split; [exact Hc|]. split; [exact Hblock|exact Hacc].
Defined.

(** The name [a/b]: the world is returned as it was. *)
Lemma cp_rm_slash_before_resolution_witness :
  cpD fileCid dirCid "a/b" ∅ world
    = (Err (InvalidParametersError "Name must not have slashes"), world) /\
  rmD dirCid "a/b" ∅ world
    = (Err (InvalidParametersError "Name must not have slashes"), world).
Proof.
  apply (cp_rm_slash_before_resolution fanOutBits hashFn maxDepth serializedSize digest
           cumulativeSize threshold true fileCid dirCid "a/b" ∅ ∅ world).
  reflexivity.
Defined.

(** C4, as stated, fails: the error of [cp] on the name [a/b] is not
    an [InvalidNameError]. *)
Lemma cp_slash_not_InvalidNameError :
  includesSlash "a/b" = true /\
  ~ exists e w', cpD fileCid dirCid "a/b" ∅ world = (Err e, w') /\
                 errorName e = "InvalidNameError".
Proof.
  split; [reflexivity|]. intros (e & w' & Hrun & Hname).
  injection Hrun as <- _. discriminate Hname.
Qed.

(** The name [a/b]: the error class and the blocks. *)
Lemma cp_rm_slash_invalid_parameters_witness :
  (exists e w', cpD fileCid dirCid "a/b" ∅ world = (Err e, w') /\
                errorName e = "InvalidParametersError" /\
                blocks w' = blocks world) /\
  (exists e w', rmD dirCid "a/b" ∅ world = (Err e, w') /\
                errorName e = "InvalidParametersError" /\
                blocks w' = blocks world).
Proof.
  apply (cp_rm_slash_invalid_parameters fanOutBits hashFn maxDepth serializedSize digest
           cumulativeSize threshold true fileCid dirCid "a/b" ∅ ∅ world).
  reflexivity.
Defined.

(** C7, as stated, fails: the target is a file, and [rm] on the name
    [a/b] does not fail with [NotADirectoryError]. *)
Lemma rm_slash_not_NotADirectoryError :
  blocks world !! fileCid = Some (FileBlock 4) /\
  type (FileBlock 4) <> directory /\
  ~ exists w', rmD fileCid "a/b" ∅ world = (Err (NotADirectoryError fileCid), w').
Proof.
  split; [by vm_compute|]. split; [done|]. intros (w' & Hrun).
  injection Hrun as Herr _. discriminate Herr.
Qed.

(** The file as target, under the name [bar]. *)
Lemma cp_rm_not_a_directory_witness :
  (exists w', rmD fileCid "bar" ∅ world = (Err (NotADirectoryError fileCid), w')) /\
  (exists w', cpD fileCid fileCid "bar" ∅ world
              = (Err (NotADirectoryError fileCid), w')).
Proof.
  destruct (cp_rm_not_a_directory fanOutBits hashFn maxDepth serializedSize digest
              cumulativeSize threshold true fileCid fileCid "bar" ∅ ∅ world
              (FileBlock 4)) as [Hrm (e & w' & Hcp & He)].
  - reflexivity.
  - by vm_compute.
  - done.
  - split; [exact Hrm|]. exists w'. rewrite <- He; [exact Hcp|].
    left. apply (bool_decide_unpack _). by vm_compute.
Defined.

(** Adding [foo.txt] at the end of [a/b/c]: a new root is returned,
    with four new CIDs on the path and the files beside the path where
    they were. *)
Lemma ancestor_propagation_witness :
  updated = (Ok updatedRoot, updatedWorld) /\
  exists D0' D1' D2' D3',
    resolvePath fanOutBits hashFn maxDepth (blocks updatedWorld) updatedRoot
                ["a"; "b"; "c"] = Some [D0'; D1'; D2'; D3'] /\
    cid D0' = updatedRoot /\
    cid D3' <> leafCid /\ cid D2' <> cidB /\ cid D1' <> cidA /\ cid D0' <> rootCid /\
    getLink fanOutBits hashFn maxDepth (node D0') "bar" = Some barLink /\
    getLink fanOutBits hashFn maxDepth (node D1') "baz" = Some bazLink /\
    getLink fanOutBits hashFn maxDepth (node D2') "baz" = Some bazLink.
Proof.
  destruct (ancestor_propagation fanOutBits hashFn maxDepth serializedSize digest
              cumulativeSize Demo_digest_inj rootCid "a" "b" "c" addFoo ∅ world
              (mkDirectory rootCid rootDir) (mkDirectory cidA dirA)
              (mkDirectory cidB dirB) (mkDirectory leafCid leafDir))
    as [Hchanged Hproduced].
  - unfold world. cbn [blocks].
    repeat (apply map_Forall_insert_2; [reflexivity || exact I|]).
    apply map_Forall_empty.
  - by vm_compute.
  - apply (bool_decide_unpack _). by vm_compute.
  - apply (bool_decide_unpack _). by vm_compute.
  - apply (bool_decide_unpack _). by vm_compute.
  - intros n' Hn'. vm_compute in Hn'. injection Hn' as <-. discriminate.
  - destruct Hproduced as (R' & w' & Hrun').
    + unfold maxDepth. lia.
    + intros a b Ha Hb Hne. cbn [node rootDir] in Ha, Hb. told_apart Ha Hb.
    + intros a b Ha Hb Hne. cbn [node dirA] in Ha, Hb. told_apart Ha Hb.
    + intros a b Ha Hb Hne. cbn [node dirB] in Ha, Hb. told_apart Ha Hb.
    + reflexivity.
    + assert (Hrun : updated = (Ok updatedRoot, updatedWorld)).
      { unfold updatedRoot, updatedWorld.
        change (updated = (Ok R', w')) in Hrun'. by rewrite Hrun'. }
      split; [exact Hrun|].
      destruct (Hchanged _ _ Hrun)
        as (D0' & D1' & D2' & D3' & Hres & _ & HR & N3 & N2 & N1 & N0 & F0 & F1 & F2).
      exists D0', D1', D2', D3'.
      split; [exact Hres|]. split; [exact HR|].
      split; [exact N3|]. split; [exact N2|]. split; [exact N1|]. split; [exact N0|].
      split; [|split].
      * rewrite (F0 "bar") by discriminate. reflexivity.
      * rewrite (F1 "baz") by discriminate. reflexivity.
      * rewrite (F2 "baz") by discriminate. reflexivity.
Defined.

End Witnesses.

(** * The further properties on the reference instance *)

Section ExtraWitnesses.

Import Demo.

Local Abbreviation cpD :=
  (cp fanOutBits hashFn maxDepth serializedSize digest cumulativeSize threshold true).
Local Abbreviation rmD := (rm fanOutBits hashFn maxDepth digest threshold).
Local Abbreviation getLinkD := (getLink fanOutBits hashFn maxDepth).

(** [force: false] and the default threshold, given or left out. *)
Lemma cp_rm_explicit_default_witness :
  cpD fileCid dirCid "foo.txt" (<["force" := VBool false]> ∅) world
    = cpD fileCid dirCid "foo.txt" ∅ world /\
  rmD dirCid "bar" (<["shardSplitThresholdBytes" := VNumber threshold]> ∅) world
    = rmD dirCid "bar" ∅ world.
Proof.
  split.
  - apply (cp_rm_explicit_default fanOutBits hashFn maxDepth serializedSize digest
             cumulativeSize threshold true fileCid dirCid "foo.txt" ∅
             "force" (VBool false) world); reflexivity.
  - apply (cp_rm_explicit_default fanOutBits hashFn maxDepth serializedSize digest
             cumulativeSize threshold true fileCid dirCid "bar" ∅
             "shardSplitThresholdBytes" (VNumber threshold) world); reflexivity.
Defined.

(** An options object that carries [allowOverwriting]. *)
Lemma cp_options_reach_addLink_witness :
  prop (cpAddLinkOptions dirCid
          (mergeOptions (cpDefaultOptions threshold)
                        (<["allowOverwriting" := VBool true]> ∅)))
       "allowOverwriting" = VBool true.
Proof.
  apply (cp_options_reach_addLink threshold dirCid
           (<["allowOverwriting" := VBool true]> ∅) "allowOverwriting" (VBool true));
    reflexivity.
Defined.

(** A CID the store does not hold. *)
Lemma cp_rm_missing_target_witness :
  rmD (mkCID V1 99) "bar" ∅ world = (Err NotFoundError, afterGet (mkCID V1 99) world) /\
  cpD fileCid (mkCID V1 99) "bar" ∅ world
    = (Err NotFoundError, afterGet fileCid (afterGet (mkCID V1 99) world)).
Proof.
  apply (cp_rm_missing_target fanOutBits hashFn maxDepth serializedSize digest
           cumulativeSize threshold true fileCid (mkCID V1 99) "bar" ∅ ∅ world).
  - reflexivity.
  - by vm_compute.
Defined.


Lemma cp_succeeds_witness :
  exists c w', cpD fileCid dirCid "foo.txt" ∅ world = (Ok c, w') /\
               blocks w' !! c = Some (DirectoryBlock (FlatNode [barLink; fooLink])).
Proof.
  apply (cp_succeeds fanOutBits hashFn maxDepth serializedSize digest
           cumulativeSize threshold true fileCid dirCid "foo.txt" ∅ world
           (FileBlock 4) [barLink]).
  - apply map_Forall_empty.
  - reflexivity.
  - by vm_compute.
  - by vm_compute.
  - by left.
  - by vm_compute.
Defined.

(** Copying the file as [bar] with [force], twice. *)
Lemma cp_twice_witness :
  exists c w1 w2,
    cpD fileCid dirCid "bar" (<["force" := VBool true]> ∅) world = (Ok c, w1) /\
    cpD fileCid c "bar" (<["force" := VBool true]> ∅) w1 = (Ok c, w2) /\
    blocks w2 = blocks w1.
Proof.
  pose proof (run_returned dirCid
                (cpD fileCid dirCid "bar" (<["force" := VBool true]> ∅) world)) as Hrun.
  specialize (Hrun ltac:(vm_compute; reflexivity)).
  destruct (cp_twice fanOutBits hashFn maxDepth serializedSize digest
              cumulativeSize threshold true fileCid dirCid "bar"
              (<["force" := VBool true]> ∅) world
              (returned dirCid
                 (cpD fileCid dirCid "bar" (<["force" := VBool true]> ∅) world).1)
              (cpD fileCid dirCid "bar" (<["force" := VBool true]> ∅) world).2)
    as (w2 & Hagain & Hblocks);
    [| | |exact Hrun|].
  - apply map_Forall_insert_2; [reflexivity|apply map_Forall_empty].
  - reflexivity.
  - intros Heq. vm_compute in Heq. discriminate Heq.
  - eexists _, _, w2. split; [exact Hrun|]. by split.
Defined.

(** The sharded directory of three links is well shaped. *)
Lemma shardedDir_wellShaped : wellShaped fanOutBits hashFn maxDepth shardedDir.
Proof.
  destruct (convertToShardedDirectory_wellShaped fanOutBits hashFn maxDepth
              [barLink; fooLink; bazLink]) as (root & Hroot & Hshape).
  - unfold maxDepth. lia.
  - intros a b Ha Hb Hne.
    repeat (apply elem_of_cons in Ha as [->|Ha]); try (by apply elem_of_nil in Ha);
      repeat (apply elem_of_cons in Hb as [->|Hb]); try (by apply elem_of_nil in Hb);
      try done;
      first [ by (exists 0; split; [unfold maxDepth; lia|by vm_compute])
            | by (exists 1; split; [unfold maxDepth; lia|by vm_compute])
            | by (exists 2; split; [unfold maxDepth; lia|by vm_compute])
            | by (exists 3; split; [unfold maxDepth; lia|by vm_compute]) ].
  - unfold shardedDir, shardedRoot. by rewrite Hroot.
Qed.

(** Removing [bar] from the sharded directory of three links. *)
Lemma rm_removes_link_witness :
  exists c w' n,
    rmD shardedCid "bar" ∅ world = (Ok c, w') /\
    blocks w' !! c = Some (DirectoryBlock n) /\
    getLinkD n "bar" = None /\
    getLinkD n "baz" = Some bazLink /\
    getLinkD n "foo.txt" = Some fooLink.
Proof.
  pose proof (run_returned dirCid (rmD shardedCid "bar" ∅ world)) as Hrun.
  specialize (Hrun ltac:(vm_compute; reflexivity)).
  destruct (rm_removes_link fanOutBits hashFn maxDepth digest threshold
              shardedCid "bar" ∅ world
              (returned dirCid (rmD shardedCid "bar" ∅ world).1)
              (rmD shardedCid "bar" ∅ world).2 shardedDir)
    as (n & Hn & Hgone & Hothers);
    [by vm_compute|exact shardedDir_wellShaped|exact Hrun|].
  eexists _, _, n. split; [exact Hrun|]. split; [exact Hn|]. split; [exact Hgone|].
  rewrite (Hothers "baz"), (Hothers "foo.txt") by discriminate.
  split; by vm_compute.
Defined.

(** [foo.txt] copied into the directory that holds [bar], and
    removed again. *)
Lemma cp_then_rm_witness :
  exists c w1 w2,
    cpD fileCid dirCid "foo.txt" ∅ world = (Ok c, w1) /\
    rmD c "foo.txt" ∅ w1 = (Ok dirCid, w2).
Proof.
  pose proof (run_returned dirCid (cpD fileCid dirCid "foo.txt" ∅ world)) as Hrun.
  specialize (Hrun ltac:(vm_compute; reflexivity)).
  destruct (cp_then_rm fanOutBits hashFn maxDepth serializedSize digest
              cumulativeSize threshold true fileCid dirCid "foo.txt" ∅ ∅ world
              (returned dirCid (cpD fileCid dirCid "foo.txt" ∅ world).1)
              (cpD fileCid dirCid "foo.txt" ∅ world).2
              (FileBlock 4) [barLink]) as (w2 & Hrm);
    [apply map_Forall_empty|by vm_compute|by vm_compute|reflexivity|
     by vm_compute|by vm_compute|exact Hrun|].
  eexists _, _, w2. by split.
Defined.

End ExtraWitnesses.
